(** * deno-redis: the connection lifecycle of [redis.ts]

    A shallow embedding of [RedisConnection] (connect, close, reconnect),
    of [parsePortLike], and of the two [RedisImpl] methods [quit] and
    [pubsub_numsubs], followed by the properties of the specification that
    concern them.

    Conventions.
    - A JavaScript value of unknown shape is a [jsval].  A [number] is an
      integer, [NaN], or some other non-integral value; the numbers that the
      option table documents as integers ([db], [maxRetryCount]) are [Z].
    - A string is a [string] of code units below 256.
    - Everything the class does to the outside (dialling, one
      request/reply exchange, closing the transport) is answered by a
      [world]; every such call is recorded in a log together with the two
      flags [isConnected] and [isClosed] as they stand when the call is
      made, which is what other code can read while the call is pending.
    - Asynchronous code is run in program order.  The timer callbacks of
      [reconnect] are run one after the other, each finished before the
      next; an error that escapes a callback ends the run.
    - [io.ts] is not among the sources.  [sendCommand] is one exchange
      with the world, the executor's [exec] is a parameter of the
      [RedisImpl] methods, and the executor's queue is modelled from the
      specification, in [Mux].
    - The client of [create] and the [RedisImpl] commands that build their
      arguments ([set], [sort], the [zrange] family, [pushGeoRadiusOpts],
      [xread], [xclaim]) follow, in [RedisImpl], with the further
      properties at the end.  A number given to a command is an integer.
      [stream.ts] is not among the sources: [xidstr] and the parsers of
      the stream replies are parameters. *)

From Stdlib Require Import ZArith List String Ascii Bool Lia.
Import ListNotations.

Set Warnings "-register-all".

Local Open Scope string_scope.
Local Open Scope Z_scope.
Local Open Scope list_scope.

(** ** JavaScript values *)

Inductive number : Type :=
| Int (z : Z)        (* a Number whose value is the integer [z] *)
| NaN
| NonInteger.        (* a fraction, [Infinity] or [-Infinity] *)

Inductive jsval : Type :=
| JUndefined
| JNull
| JBoolean (b : bool)
| JNumber (n : number)
| JString (s : string)
| JOther (type_name : string).   (* object, function, symbol, bigint *)

Definition typeof (v : jsval) : string :=
  match v with
  | JUndefined => "undefined"
  | JNull => "object"
  | JBoolean _ => "boolean"
  | JNumber _ => "number"
  | JString _ => "string"
  | JOther t => t
  end.

Definition MAX_SAFE_INTEGER : Z := 2 ^ 53 - 1.

(** [Number.isSafeInteger] *)
Definition isSafeInteger (n : number) : bool :=
  match n with
  | Int z => Z.abs z <=? MAX_SAFE_INTEGER
  | NaN | NonInteger => false
  end.

(** ** [parseInt] with no radix argument

    White space and sign are skipped, a [0x] prefix selects radix 16, and
    the longest run of digits that follows is the value; what comes after
    that run is ignored.  The mathematical value is kept as it is: the
    rounding to a double only changes values beyond [2^53], all of which
    round to doubles that [isSafeInteger] refuses as well. *)

Definition code (c : ascii) : Z := Z.of_N (N_of_ascii c).

(** StrWhiteSpaceChar, as far as code units below 256 go:
    TAB, LF, VT, FF, CR, SP and NBSP. *)
Definition isWhiteSpace (c : ascii) : bool :=
  let n := code c in
  ((9 <=? n) && (n <=? 13)) || (n =? 32) || (n =? 160).

Fixpoint trimStart (s : string) : string :=
  match s with
  | String c rest => if isWhiteSpace c then trimStart rest else s
  | EmptyString => EmptyString
  end.

(** The value of [c] as a digit of radix [radix], if it is one. *)
Definition digitValue (radix : Z) (c : ascii) : option Z :=
  let n := code c in
  let v :=
    if (48 <=? n) && (n <=? 57) then Some (n - 48)            (* 0-9 *)
    else if (97 <=? n) && (n <=? 122) then Some (n - 97 + 10) (* a-z *)
    else if (65 <=? n) && (n <=? 90) then Some (n - 65 + 10)  (* A-Z *)
    else None in
  match v with
  | Some d => if d <? radix then Some d else None
  | None => None
  end.

(** The digits of the longest prefix of [s] made of radix-[radix] digits. *)
Fixpoint digitsPrefix (radix : Z) (s : string) : list Z :=
  match s with
  | String c rest =>
      match digitValue radix c with
      | Some d => d :: digitsPrefix radix rest
      | None => []
      end
  | EmptyString => []
  end.

Definition digitsValue (radix : Z) (ds : list Z) : Z :=
  fold_left (fun acc d => acc * radix + d) ds 0.

Definition stripSign (s : string) : Z * string :=
  match s with
  | String "-" rest => (-1, rest)
  | String "+" rest => (1, rest)
  | _ => (1, s)
  end.

Definition stripHexPrefix (s : string) : Z * string :=
  match s with
  | String "0" (String "x" rest) => (16, rest)
  | String "0" (String "X" rest) => (16, rest)
  | _ => (10, s)
  end.

Definition parseInt (s : string) : number :=
  let '(sign, s1) := stripSign (trimStart s) in
  let '(radix, s2) := stripHexPrefix s1 in
  match digitsPrefix radix s2 with
  | [] => NaN
  | ds => Int (sign * digitsValue radix ds)
  end.

(** ** Errors and results *)

Inductive exn : Type :=
| BadResource                              (* Deno.errors.BadResource *)
| Thrown (class_name message : string).    (* any other error object *)

Definition Error (message : string) : exn := Thrown "Error" message.
Definition TypeError (message : string) : exn := Thrown "TypeError" message.

Definition isBadResource (e : exn) : bool :=
  match e with BadResource => true | Thrown _ _ => false end.

Inductive result (A : Type) : Type :=
| Value (a : A)
| Throw (e : exn).
Arguments Value {A} a.
Arguments Throw {A} e.

(** ** [parsePortLike] *)

Definition parsePortLike (port : jsval) : result number :=
  match port with
  | JString s => Value (parseInt s)
  | JNumber n => Value n
  | JUndefined => Value (Int 6379)
  | _ => Throw (Error ("port is invalid: typeof=" ++ typeof port)%string)
  end.

(** ** Replies and commands *)

(** The reply part of a [RedisRawReply]: a status or bulk string, an
    integer, nil, or an array of replies. *)
Inductive raw : Type :=
| RString (s : string)
| RInteger (z : Z)
| RNil
| RArray (items : list raw).

(** [RedisRawReply] is the pair of the reply's type tag and the reply. *)
Definition RedisRawReply : Type := string * raw.

(** A command argument, [string | number]. *)
Inductive arg : Type :=
| AString (s : string)
| ANumber (z : Z).

(** ** The outside world *)

Inductive event : Type :=
| Dial (tls : bool) (hostname : string) (port : Z)     (* Deno.connect, Deno.connectTls *)
| Exchange (conn : nat) (command : string) (args : list arg)   (* sendCommand *)
| Close (conn : nat)                                   (* closer.close() *)
| Tick (ms : Z).                                       (* the interval timer fires *)

(** One entry of the log: the call, and the flags at that moment. *)
Record sample : Type := {
  what : event;
  seenConnected : bool;
  seenClosed : bool;
}.

(** The world answers each call from what has happened so far. *)
Record world : Type := {
  on_dial : list sample -> bool -> string -> Z -> option exn;
  on_exchange : list sample -> nat -> string -> list arg -> result RedisRawReply;
  on_close : list sample -> nat -> option exn;
}.

(** ** The connection object *)

Module Options.
(** [RedisConnectionOptions], without hostname and port. *)
Record t : Type := {
  tls : option bool;
  db : option Z;
  password : option string;
  name : option string;
  maxRetryCount : option Z;
}.
End Options.

(** [RedisConnectOptions], the argument of [connect]. *)
Record RedisConnectOptions : Type := {
  connect_hostname : string;
  connect_port : jsval;
  connect_options : Options.t;
}.

(** [io.ts], which defines [muxExecutor], is not among the sources; an
    executor is represented by the flag it was created with. *)
Record CommandExecutor : Type := {
  attemptReconnect : bool;
}.

Definition muxExecutor (attempt : bool) : CommandExecutor :=
  {| attemptReconnect := attempt |}.

(** The fields of [RedisConnection].  [hostname], [port] and [options] are
    the constructor arguments that [connectThunkified] captures; [closer],
    [reader] and [writer] hold the number of the dialled connection. *)
Record RedisConnection : Type := {
  hostname : string;
  port : jsval;
  options : Options.t;
  name : option string;
  closer : option nat;
  reader : option nat;
  writer : option nat;
  executor : option CommandExecutor;
  isConnected : bool;
  isClosed : bool;
  maxRetryCount : Z;
  retryCount : Z;
}.

(** [new RedisConnection(hostname, port, options)] *)
Definition new_RedisConnection (h : string) (p : jsval) (o : Options.t)
  : RedisConnection :=
  {| hostname := h; port := p; options := o;
     name := None;
     closer := None; reader := None; writer := None;
     executor := None;
     isConnected := false; isClosed := false;
     maxRetryCount := 0; retryCount := 0 |}.

Definition set_name (v : option string) (c : RedisConnection) :=
  {| hostname := hostname c; port := port c; options := options c;
     name := v;
     closer := closer c; reader := reader c; writer := writer c;
     executor := executor c;
     isConnected := isConnected c; isClosed := isClosed c;
     maxRetryCount := maxRetryCount c; retryCount := retryCount c |}.

Definition set_maxRetryCount (v : Z) (c : RedisConnection) :=
  {| hostname := hostname c; port := port c; options := options c;
     name := name c;
     closer := closer c; reader := reader c; writer := writer c;
     executor := executor c;
     isConnected := isConnected c; isClosed := isClosed c;
     maxRetryCount := v; retryCount := retryCount c |}.

(** [closer], [reader] and [writer] are assigned together, from one dial. *)
Definition set_transport (conn : nat) (c : RedisConnection) :=
  {| hostname := hostname c; port := port c; options := options c;
     name := name c;
     closer := Some conn; reader := Some conn; writer := Some conn;
     executor := executor c;
     isConnected := isConnected c; isClosed := isClosed c;
     maxRetryCount := maxRetryCount c; retryCount := retryCount c |}.

Definition set_executor (v : CommandExecutor) (c : RedisConnection) :=
  {| hostname := hostname c; port := port c; options := options c;
     name := name c;
     closer := closer c; reader := reader c; writer := writer c;
     executor := Some v;
     isConnected := isConnected c; isClosed := isClosed c;
     maxRetryCount := maxRetryCount c; retryCount := retryCount c |}.

Definition set_isConnected (v : bool) (c : RedisConnection) :=
  {| hostname := hostname c; port := port c; options := options c;
     name := name c;
     closer := closer c; reader := reader c; writer := writer c;
     executor := executor c;
     isConnected := v; isClosed := isClosed c;
     maxRetryCount := maxRetryCount c; retryCount := retryCount c |}.

Definition set_isClosed (v : bool) (c : RedisConnection) :=
  {| hostname := hostname c; port := port c; options := options c;
     name := name c;
     closer := closer c; reader := reader c; writer := writer c;
     executor := executor c;
     isConnected := isConnected c; isClosed := v;
     maxRetryCount := maxRetryCount c; retryCount := retryCount c |}.

Definition set_retryCount (v : Z) (c : RedisConnection) :=
  {| hostname := hostname c; port := port c; options := options c;
     name := name c;
     closer := closer c; reader := reader c; writer := writer c;
     executor := executor c;
     isConnected := isConnected c; isClosed := isClosed c;
     maxRetryCount := maxRetryCount c; retryCount := v |}.

(** ** The monad: a world to ask, a connection to mutate, a log to extend,
    and exceptions *)

Record machine : Type := {
  self : RedisConnection;
  log : list sample;
}.

Definition M (A : Type) : Type := world -> machine -> result A * machine.

Definition ret {A} (a : A) : M A := fun _ m => (Value a, m).

Definition throw {A} (e : exn) : M A := fun _ m => (Throw e, m).

Definition bind {A B} (c : M A) (k : A -> M B) : M B :=
  fun w m =>
    match c w m with
    | (Value a, m') => k a w m'
    | (Throw e, m') => (Throw e, m')
    end.

Declare Scope m_scope.
Delimit Scope m_scope with m.
Notation "x <- c ;; k" := (bind c (fun x => k))
  (at level 61, c at next level, right associativity) : m_scope.
Notation "c ;; k" := (bind c (fun _ => k))
  (at level 61, right associativity) : m_scope.
Local Open Scope m_scope.

(** [try { c } catch (e) { h e }] *)
Definition try_catch {A} (c : M A) (h : exn -> M A) : M A :=
  fun w m =>
    match c w m with
    | (Value a, m') => (Value a, m')
    | (Throw e, m') => h e w m'
    end.

(** [try { c } finally { f }], and [promise.finally(f)]: [f] runs in
    both cases, and an error raised by [f] replaces the outcome of [c]. *)
Definition try_finally {A} (c : M A) (f : M unit) : M A :=
  fun w m =>
    let '(r, m') := c w m in
    match f w m' with
    | (Value _, m'') => (r, m'')
    | (Throw e, m'') => (Throw e, m'')
    end.

(** Runs [c] and hands back its outcome as a value. *)
Definition attempt {A} (c : M A) : M (result A) :=
  fun w m => let '(r, m') := c w m in (Value r, m').

Definition get : M RedisConnection := fun _ m => (Value (self m), m).

Definition modify (f : RedisConnection -> RedisConnection) : M unit :=
  fun _ m => (Value tt, {| self := f (self m); log := log m |}).

Definition when (b : bool) (c : M unit) : M unit := if b then c else ret tt.

(** Appends [e] to the log, with the flags as they are now. *)
Definition record_event (e : event) (m : machine) : machine :=
  {| self := self m;
     log := log m ++ [ {| what := e;
                          seenConnected := isConnected (self m);
                          seenClosed := isClosed (self m) |} ] |}.

Definition observe (e : event) : M unit :=
  fun _ m => (Value tt, record_event e m).

Definition isDial (s : sample) : bool :=
  match what s with Dial _ _ _ => true | _ => false end.

(** Dialled connections are numbered in the order of the dials. *)
Definition next_conn (l : list sample) : nat := List.length (filter isDial l).

(** [Deno.connect(dialOpts)] and [Deno.connectTls(dialOpts)] *)
Definition dial (tls : bool) (h : string) (p : Z) : M nat :=
  fun w m =>
    match on_dial w (log m) tls h p with
    | None => (Value (next_conn (log m)), record_event (Dial tls h p) m)
    | Some e => (Throw e, record_event (Dial tls h p) m)
    end.

(** [sendCommand(writer, reader, command, ...args)], from [io.ts]: one
    request and its reply on the given connection; it fails on an
    input/output error and on an error reply. *)
Definition sendCommand (wr rd : option nat) (command : string) (args : list arg)
  : M RedisRawReply :=
  match wr, rd with
  | Some c, Some _ =>
      fun w m => (on_exchange w (log m) c command args,
                  record_event (Exchange c command args) m)
  | _, _ => throw (TypeError "Cannot read properties of undefined")
  end.

(** ** Truthiness of the optional fields *)

Definition truthyBool (b : option bool) : bool :=
  match b with Some true => true | _ => false end.

Definition truthyString (s : option string) : bool :=
  match s with Some (String _ _) => true | _ => false end.

Definition truthyNumber (n : option Z) : bool :=
  match n with Some z => negb (z =? 0) | None => false end.

(** ** Methods of [RedisConnection] *)

(** The call [this.closer!.close()]. *)
Definition closer_close : M unit :=
  c <- get ;;
  match closer c with
  | Some conn =>
      fun w m =>
        match on_close w (log m) conn with
        | None => (Value tt, record_event (Close conn) m)
        | Some e => (Throw e, record_event (Close conn) m)
        end
  | None => throw (TypeError "Cannot read properties of undefined")
  end.

Definition close : M unit :=
  modify (set_isClosed true) ;;
  modify (set_isConnected false) ;;
  try_catch closer_close
    (fun error => if negb (isBadResource error) then throw error else ret tt).

Definition authenticate (password : string) : M RedisRawReply :=
  c <- get ;;
  sendCommand (writer c) (reader c) "AUTH" [AString password].

Definition selectDb (databaseIndex : option Z) : M RedisRawReply :=
  c <- get ;;
  let databaseIndex :=
    match databaseIndex with
    | Some i => Some i
    | None => Options.db (options c)      (* the default value of the parameter *)
    end in
  match databaseIndex with
  | Some i =>
      if i =? 0 then throw (Error "The database index is undefined.")
      else sendCommand (writer c) (reader c) "SELECT" [ANumber i]
  | None => throw (Error "The database index is undefined.")
  end.

(** The integer that a safe-integer port stands for. *)
Definition portValue (n : number) : Z :=
  match n with Int z => z | NaN | NonInteger => 0 end.

Definition lift {A} (r : result A) : M A := fun _ m => (r, m).

(** The function that [thunkifyConnect(hostname, port, options)] returns. *)
Definition connectThunkified (h : string) (p : jsval) (o : Options.t) : M unit :=
  dialPort <- lift (parsePortLike p) ;;
  if negb (isSafeInteger dialPort)
  then throw (Error "deno-redis: opts.port is invalid")
  else
    conn <- dial (truthyBool (Options.tls o)) h (portValue dialPort) ;;
    when (truthyString (Options.name o))
         (modify (set_name (Options.name o))) ;;
    match Options.maxRetryCount o with
    | Some n => when (negb (n =? 0)) (modify (set_maxRetryCount n))
    | None => ret tt
    end ;;
    modify (set_transport conn) ;;
    c <- get ;;
    modify (set_executor (muxExecutor (maxRetryCount c >? 0))) ;;
    modify (set_isClosed false) ;;
    modify (set_isConnected true) ;;
    try_catch
      (match Options.password o with
       | Some pw => authenticate pw ;; ret tt
       | None => ret tt
       end ;;
       when (truthyNumber (Options.db o))
            (selectDb (Options.db o) ;; ret tt))
      (fun error => close ;; throw error).

(** [RedisConnection.connect()] *)
Definition RedisConnection_connect : M unit :=
  c <- get ;;
  connectThunkified (hostname c) (port c) (options c).

(** The default value of the parameter [port] of the exported [connect]. *)
Definition port_or_default (p : jsval) : jsval :=
  match p with
  | JUndefined => JNumber (Int 6379)
  | v => v
  end.

(** The exported [connect]: the result is the outcome of
    [connection.connect()], with the connection that the returned client
    wraps. *)
Definition connect (opts : RedisConnectOptions) (w : world) : result unit * machine :=
  RedisConnection_connect w
    {| self := new_RedisConnection (connect_hostname opts)
                 (port_or_default (connect_port opts)) (connect_options opts);
       log := [] |}.

(** *** [reconnect] *)

(** How the promise that [reconnect()] returns ends.  An error that escapes
    the timer callback is an unhandled rejection, which ends the program;
    the promise is then left pending. *)
Inductive settled : Type :=
| Resolved
| Rejected (e : exn)
| Uncaught (e : exn).

Definition retry_interval_ms : Z := 1200.

(** The [try ... catch ... finally] of the timer callback; the result is
    whether the [try] block ran to its end. *)
Definition retry_body : M bool :=
  try_finally
    (try_catch
       (close ;;
        RedisConnection_connect ;;
        c <- get ;;
        sendCommand (writer c) (reader c) "PING" [] ;;
        modify (set_isConnected true) ;;
        modify (set_retryCount 0) ;;
        ret true)
       (fun _ => ret false))
    (c <- get ;; modify (set_retryCount (retryCount c + 1))).

(** The [k]-th run of the timer callback.  [None]: the interval is still
    set and the promise still pending.  The callback does not return after
    [reject], so the [try] block runs in that case too. *)
Definition retry_tick (k : Z) : M (option settled) :=
  observe (Tick (retry_interval_ms * k)) ;;
  c <- get ;;
  if retryCount c >? maxRetryCount c then
    r <- attempt close ;;
    match r with
    | Throw e => ret (Some (Uncaught e))
    | Value _ =>
        retry_body ;;
        ret (Some (Rejected (Error "Could not reconnect")))
    end
  else
    ok <- retry_body ;;
    if ok : bool then ret (Some Resolved) else ret None.

(** The timer callbacks in sequence, each one finished before the next
    starts; [fuel] bounds how many are run. *)
Fixpoint retry_loop (fuel : nat) (k : Z) : M (option settled) :=
  match fuel with
  | O => ret None
  | S fuel' =>
      r <- retry_tick k ;;
      match r with
      | Some s => ret (Some s)
      | None => retry_loop fuel' (k + 1)
      end
  end.

(** [reader.peek(1)] returns a promise, which [reconnect] does not await:
    the test [!readerAsBuffer.peek(1)] is false whenever there is a reader.
    The read that the call may start on the connection is not part of the
    model. *)
Definition reconnect (fuel : nat) : M (option settled) :=
  c <- get ;;
  let readerAsBuffer := reader c in
  let writerAsBuffer := writer c in
  match readerAsBuffer with
  | None => ret (Some (Rejected (TypeError "Cannot read properties of undefined")))
  | Some _ =>
      r <- attempt (sendCommand writerAsBuffer readerAsBuffer "PING" []) ;;
      match r with
      | Value _ =>
          modify (set_isConnected true) ;;
          ret (Some Resolved)
      | Throw _ =>
          modify (set_isConnected false) ;;
          retry_loop fuel 1
      end
  end.

(** ** [RedisImpl] *)

(** What [RedisImpl] uses of the [Connection] interface: the executor's
    [exec], which may do anything to the connection, and [close]. *)
Record Connection : Type := {
  exec : string -> list arg -> M RedisRawReply;
  connection_close : M unit;
}.

(** A client on a [RedisConnection], with executor [e]. *)
Definition RedisConnection_as_Connection
  (e : string -> list arg -> M RedisRawReply) : Connection :=
  {| exec := e; connection_close := close |}.

(** The connection object that [create] builds: [close()] is
    [closer.close()] and nothing more. *)
Definition created_Connection
  (e : string -> list arg -> M RedisRawReply) : Connection :=
  {| exec := e; connection_close := closer_close |}.

Definition execStatusReply (conn : Connection) (command : string) (args : list arg)
  : M raw :=
  r <- exec conn command args ;;
  ret (snd r).

Definition execArrayReply (conn : Connection) (command : string) (args : list arg)
  : M raw :=
  r <- exec conn command args ;;
  ret (snd r).


(** The loop of [pubsub_numsubs]: [i] steps by two while [i < arr.length];
    an index past the end reads [undefined], here [None]. *)
Fixpoint numsubs_loop (fuel : nat) (arr : list raw) (i : nat)
  (ret : list (option raw * option raw)) : list (option raw * option raw) :=
  match fuel with
  | O => ret
  | S fuel' =>
      if (i <? List.length arr)%nat
      then numsubs_loop fuel' arr (i + 2)
             (ret ++ [(nth_error arr i, nth_error arr (i + 1))])
      else ret
  end.

Definition numsubs_pairs (arr : list raw) : list (option raw * option raw) :=
  numsubs_loop (List.length arr) arr 0 [].

(** The reply is used as an array without a test: a string is indexed by
    its characters, an integer has no length, and nil has no properties. *)
Definition pubsub_numsubs (conn : Connection) (channels : list string)
  : M (list (option raw * option raw)) :=
  arr <- execArrayReply conn "PUBSUB" (AString "NUMSUBS" :: map AString channels) ;;
  match arr with
  | RArray items => ret (numsubs_pairs items)
  | RString s =>
      ret (numsubs_pairs
             (map (fun c => RString (String c EmptyString)) (list_ascii_of_string s)))
  | RInteger _ => ret []
  | RNil => throw (TypeError "Cannot read properties of undefined")
  end.

(** ** The executor's queue *)

Module Mux.

(** Modelled from the spec: the executor ([muxExecutor], in [io.ts]) is not
    among the sources; what follows is the scheduling algorithm of the
    specification's section on the executor.  A command is its sequence
    of tokens. *)
Definition command : Type := list string.

(** Modelled from the spec: a pending request, "(command tokens, reply
    slot)"; the slot is named by the ticket that the submission was given,
    the number of submissions made before it. *)
Record pending : Type := {
  ticket : nat;
  tokens : command;
}.

(** Modelled from the spec: the server answers each command from the
    commands it has received before it. *)
Definition server : Type := list command -> command -> raw.

(** Modelled from the spec: the executor state.  [submitted] lists the
    commands of all submissions in the order they were accepted; [queue]
    is the FIFO request queue; [outstanding] holds the requests written to
    the transport whose reply has not been decoded; [wire] lists the
    commands written; [completed] lists the completions signalled, each
    with the reply it was given, in the order of decoding. *)
Record state : Type := {
  submitted : list command;
  queue : list pending;
  outstanding : list pending;
  wire : list command;
  completed : list (nat * raw);
}.

(** Modelled from the spec: the executor before any submission. *)
Definition init : state :=
  {| submitted := []; queue := []; outstanding := []; wire := []; completed := [] |}.

(** Modelled from the spec: the transport delivers replies in the order of
    the commands written; its [k]-th reply is the server's answer to the
    [k]-th command on the wire. *)
Definition reply_stream (srv : server) (written : list command) (k : nat) : raw :=
  srv (firstn k written) (nth k written []).

(** Modelled from the spec: what can happen next.  A caller submits a
    command; the dispatch loop pops the head of the queue, encodes it and
    flushes the writer; the dispatch loop decodes one reply and signals the
    completion of the request on the wire. *)
Inductive action : Type :=
| Submit (c : command)
| Dispatch
| Complete.

(** Modelled from the spec: one step of the executor.  The dispatch loop
    takes a request only when none is outstanding; an action that cannot
    happen in a state leaves it as it is. *)
Definition step (srv : server) (s : state) (a : action) : state :=
  match a with
  | Submit c =>
      {| submitted := submitted s ++ [c];
         queue := queue s ++ [ {| ticket := List.length (submitted s); tokens := c |} ];
         outstanding := outstanding s;
         wire := wire s;
         completed := completed s |}
  | Dispatch =>
      match outstanding s, queue s with
      | [], r :: q =>
          {| submitted := submitted s;
             queue := q;
             outstanding := [r];
             wire := wire s ++ [tokens r];
             completed := completed s |}
      | _, _ => s
      end
  | Complete =>
      match outstanding s with
      | r :: rest =>
          {| submitted := submitted s;
             queue := queue s;
             outstanding := rest;
             wire := wire s;
             completed :=
               completed s ++
               [(ticket r, reply_stream srv (wire s) (List.length (completed s)))] |}
      | [] => s
      end
  end.

(** Modelled from the spec: the executor after a schedule of actions. *)
Definition run (srv : server) (acts : list action) : state :=
  fold_left (step srv) acts init.

(** Modelled from the spec: the reply that belongs to the submission with
    ticket [t] among the submissions [sub], the server's answer to its
    command after the commands submitted before it. *)
Definition own_reply (srv : server) (sub : list command) (t : nat) : raw :=
  srv (firstn t sub) (nth t sub []).

(** Modelled from the spec: the request made of the submission with
    ticket [t]. *)
Definition request (sub : list command) (t : nat) : pending :=
  {| ticket := t; tokens := nth t sub [] |}.

(** Modelled from the spec: requests are dispatched and completed in the
    order of their tickets, one at a time. *)
Definition invariant (srv : server) (s : state) : Prop :=
  let nc := List.length (completed s) in
  let no := List.length (outstanding s) in
  (no <= 1)%nat /\
  (nc + no <= List.length (submitted s))%nat /\
  wire s = firstn (nc + no) (submitted s) /\
  outstanding s = map (request (submitted s)) (seq nc no) /\
  queue s =
    map (request (submitted s))
      (seq (nc + no) (List.length (submitted s) - (nc + no))) /\
  completed s = map (fun t => (t, own_reply srv (submitted s) t)) (seq 0 nc).

End Mux.

(** ** Vocabulary of the statements *)

(** [close()] called [n] times in a row by a caller that carries on after
    an error; the outcomes of the calls are collected. *)
Fixpoint close_times (n : nat) : M (list (result unit)) :=
  match n with
  | O => ret []
  | S n' =>
      r <- attempt close ;;
      rs <- close_times n' ;;
      ret (r :: rs)
  end.

(** The transport never answers a close with an error other than
    [BadResource]. *)
Definition closes_quietly (w : world) : Prop :=
  forall l conn c msg, on_close w l conn <> Some (Thrown c msg).


(** The pairing in the words of the specification: the items of a flat
    array taken two at a time. *)
Fixpoint paired (arr : list raw) : list (raw * raw) :=
  match arr with
  | chan :: num :: rest => (chan, num) :: paired rest
  | _ => []
  end.

(** A pair as [pubsub_numsubs] pushes it, both items present. *)
Definition both (p : raw * raw) : option raw * option raw :=
  (Some (fst p), Some (snd p)).

(** The value of the [maxRetryCount] option, 0 when it is absent. *)
Definition configured_maxRetryCount (o : Options.t) : Z :=
  match Options.maxRetryCount o with Some n => n | None => 0 end.

Definition isExchange (e : event) : bool :=
  match e with Exchange _ _ _ => true | _ => false end.

(** *** The course of a connect, as it shows in the log *)

(** An exchange made while the client is flagged connected and not closed. *)
Definition handshake_sample (conn : nat) (cmd : string * list arg) : sample :=
  {| what := Exchange conn (fst cmd) (snd cmd);
     seenConnected := true; seenClosed := false |}.

(** The transport's close, called with the client flagged closed. *)
Definition close_sample (conn : nat) : sample :=
  {| what := Close conn; seenConnected := false; seenClosed := true |}.

Definition dial_sample (m : machine) (tls : bool) (h : string) (z : Z) : sample :=
  {| what := Dial tls h z;
     seenConnected := isConnected (self m); seenClosed := isClosed (self m) |}.

(** The commands of the handshake: [AUTH] if a password is set, then
    [SELECT] if [db] is set and not zero. *)
Definition handshake (o : Options.t) : list (string * list arg) :=
  match Options.password o with
  | Some pw => [("AUTH", [AString pw])]
  | None => []
  end ++
  match Options.db o with
  | Some i => if i =? 0 then [] else [("SELECT", [ANumber i])]
  | None => []
  end.

(** The exchanges of [cmds] made one after the other on [conn], up to the
    first that fails: that failure, if any, and the log. *)
Fixpoint perform (w : world) (l : list sample) (conn : nat)
  (cmds : list (string * list arg)) : option exn * list sample :=
  match cmds with
  | [] => (None, l)
  | cmd :: rest =>
      match on_exchange w l conn (fst cmd) (snd cmd) with
      | Value _ => perform w (l ++ [handshake_sample conn cmd]) conn rest
      | Throw e => (Some e, l ++ [handshake_sample conn cmd])
      end
  end.

(** The connection object once the dial has returned connection [conn]. *)
Definition after_dial (conn : nat) (o : Options.t) (c : RedisConnection)
  : RedisConnection :=
  let c1 := if truthyString (Options.name o) then set_name (Options.name o) c else c in
  let c2 := if truthyNumber (Options.maxRetryCount o)
            then set_maxRetryCount (configured_maxRetryCount o) c1 else c1 in
  set_isConnected true
    (set_isClosed false
       (set_executor (muxExecutor (maxRetryCount c2 >? 0))
          (set_transport conn c2))).

(** What [close()] raises when the transport's close answers [a]. *)
Definition surfaced (a : option exn) (e0 : exn) : exn :=
  match a with
  | Some (Thrown c msg) => Thrown c msg
  | Some BadResource | None => e0
  end.

(** [connect] dials port [z] before anything else. *)
Definition dials_first (opts : RedisConnectOptions) (w : world) (z : Z) : Prop :=
  exists tl,
    log (snd (connect opts w)) =
    {| what := Dial (truthyBool (Options.tls (connect_options opts)))
                 (connect_hostname opts) z;
       seenConnected := false; seenClosed := false |} :: tl.

(** [connect] raises [e], having dialled nothing and sent nothing. *)
Definition refuses (opts : RedisConnectOptions) (w : world) (e : exn) : Prop :=
  connect opts w =
  (Throw e,
   {| self := new_RedisConnection (connect_hostname opts)
                (port_or_default (connect_port opts)) (connect_options opts);
      log := [] |}).

(** *** Numeric strings, in the words of the specification *)

Definition isDecimalDigit (c : ascii) : bool :=
  (48 <=? code c) && (code c <=? 57).

Fixpoint allDecimalDigits (s : string) : bool :=
  match s with
  | String c rest => isDecimalDigit c && allDecimalDigits rest
  | EmptyString => true
  end.

(** A numeric string: one decimal digit or more, and nothing else. *)
Definition isNumeric (s : string) : bool :=
  match s with
  | String _ _ => allDecimalDigits s
  | EmptyString => false
  end.

Fixpoint decimalValueFrom (acc : Z) (s : string) : Z :=
  match s with
  | String c rest => decimalValueFrom (acc * 10 + (code c - 48)) rest
  | EmptyString => acc
  end.

(** The integer that a numeric string writes. *)
Definition decimalValue (s : string) : Z := decimalValueFrom 0 s.

(** A tail that [parseInt] leaves alone after a decimal numeral: it does
    not go on with a digit, nor with the [x] of a hexadecimal prefix. *)
Definition endsNumeral (rest : string) : bool :=
  match rest with
  | String c _ =>
      negb (isDecimalDigit c) && negb (code c =? 120) && negb (code c =? 88)
  | EmptyString => true
  end.

(** *** The course of a reconnect *)

(** The [finally] clause of the timer callback: [this.retryCount++]. *)
Definition bump (m : machine) : machine :=
  {| self := set_retryCount (retryCount (self m) + 1) (self m); log := log m |}.

(** The machine as the [k]-th timer callback finds it: the timer has fired
    [k] periods after [reconnect] set it. *)
Definition at_tick (k : Z) (m : machine) : machine :=
  record_event (Tick (retry_interval_ms * k)) m.

(** No [maxRetryCount] that the connection has or can take from its
    options is above this. *)
Definition ceiling (c : RedisConnection) : Z :=
  Z.max (maxRetryCount c) (configured_maxRetryCount (options c)).

(** [retries w k m n s m']: from the [k]-th timer callback on, started on
    [m], the loop runs [n] callbacks and ends with [s], on [m']. *)
Inductive retries (w : world) : Z -> machine -> nat -> settled -> machine -> Prop :=
| retries_resolved (k : Z) (m m' : machine) :
    retryCount (self m) <= maxRetryCount (self m) ->
    retry_body w (at_tick k m) = (Value true, m') ->
    retries w k m 1 Resolved m'
| retries_again (k : Z) (m m1 m' : machine) (n : nat) (s : settled) :
    retryCount (self m) <= maxRetryCount (self m) ->
    retry_body w (at_tick k m) = (Value false, m1) ->
    retries w (k + 1) m1 n s m' ->
    retries w k m (S n) s m'
| retries_exceeded (k : Z) (m m1 : machine) :
    retryCount (self m) > maxRetryCount (self m) ->
    close w (at_tick k m) = (Value tt, m1) ->
    retries w k m 1 (Rejected (Error "Could not reconnect"))
      (snd (retry_body w m1))
| retries_uncaught (k : Z) (m m' : machine) (e : exn) :
    retryCount (self m) > maxRetryCount (self m) ->
    close w (at_tick k m) = (Throw e, m') ->
    retries w k m 1 (Uncaught e) m'.

(** The probe sent by [reconnect] on connection [conn] of [m]. *)
Definition probe_sample (m : machine) (conn : nat) : sample :=
  {| what := Exchange conn "PING" [];
     seenConnected := isConnected (self m); seenClosed := isClosed (self m) |}.

(** [m] after the probe, with the connection object replaced by [c]. *)
Definition probed (m : machine) (conn : nat) (c : RedisConnection) : machine :=
  {| self := c; log := log m ++ [probe_sample m conn] |}.

Definition isTick (s : sample) : bool :=
  match what s with Tick _ => true | _ => false end.

(** How many times the timer has fired. *)
Definition ticks (l : list sample) : nat := List.length (filter isTick l).


(** ** Worlds and inputs of the examples *)

Definition OK : RedisRawReply := ("status", RString "OK").

Definition PONG : RedisRawReply := ("status", RString "PONG").

(** Every call succeeds. *)
Definition calm : world :=
  {| on_dial := fun _ _ _ _ => None;
     on_exchange := fun _ _ _ _ => Value OK;
     on_close := fun _ _ => None |}.

(** Closing the transport fails with an error that is not [BadResource]. *)
Definition stuck_closer : world :=
  {| on_dial := fun _ _ _ _ => None;
     on_exchange := fun _ _ _ _ => Value OK;
     on_close := fun _ _ => Some (Error "close failed") |}.

(** The transport was closed before: closing it again is a [BadResource]. *)
Definition closed_before : world :=
  {| on_dial := fun _ _ _ _ => None;
     on_exchange := fun _ _ _ _ => Value OK;
     on_close := fun _ _ => Some BadResource |}.

(** The server refuses the password, and closing the transport then fails
    with an error that is not [BadResource]. *)
Definition refused_and_stuck : world :=
  {| on_dial := fun _ _ _ _ => None;
     on_exchange := fun _ _ _ _ => Throw (Thrown "ErrorReplyError" "-ERR invalid password");
     on_close := fun _ _ => Some (Error "close failed") |}.

(** The connection dialled first is broken; a new one works. *)
Definition broken_once : world :=
  {| on_dial := fun _ _ _ _ => None;
     on_exchange := fun _ conn _ _ =>
       if (conn =? 0)%nat then Throw BadResource else Value PONG;
     on_close := fun _ _ => None |}.

(** The connection dialled first is broken, the next two dials are
    refused, and later ones succeed. *)
Definition refused_twice : world :=
  {| on_dial := fun l _ _ _ =>
       if ((1 <=? next_conn l) && (next_conn l <? 3))%nat
       then Some (Thrown "ConnectionRefused" "connection refused")
       else None;
     on_exchange := fun _ conn _ _ =>
       if (conn =? 0)%nat then Throw BadResource else Value PONG;
     on_close := fun _ _ => None |}.

Definition no_options : Options.t :=
  {| Options.tls := None; Options.db := None; Options.password := None;
     Options.name := None; Options.maxRetryCount := None |}.

Definition with_retries (n : Z) : Options.t :=
  {| Options.tls := None; Options.db := None; Options.password := None;
     Options.name := None; Options.maxRetryCount := Some n |}.

Definition with_password (pw : string) (i : Z) : Options.t :=
  {| Options.tls := None; Options.db := Some i; Options.password := Some pw;
     Options.name := None; Options.maxRetryCount := None |}.

Definition local_redis (o : Options.t) : RedisConnectOptions :=
  {| connect_hostname := "127.0.0.1"; connect_port := JUndefined;
     connect_options := o |}.

Definition redis_at (p : jsval) : RedisConnectOptions :=
  {| connect_hostname := "127.0.0.1"; connect_port := p;
     connect_options := no_options |}.

(** A connection as [connect] leaves it: dialled once and flagged connected. *)
Definition connected (o : Options.t) : machine :=
  {| self := set_isConnected true
               (set_executor (muxExecutor false)
                  (set_transport 0
                     (new_RedisConnection "127.0.0.1" (JNumber (Int 6379)) o)));
     log := [ {| what := Dial false "127.0.0.1" 6379;
                 seenConnected := false; seenClosed := false |} ] |}.

(** A connection that has used up its retries. *)
Definition worn_out : machine :=
  {| self := set_retryCount 5 (self (connected no_options));
     log := log (connected no_options) |}.

(** A client connected with five retries allowed, in a world where its
    connection then fails. *)
Definition broken : machine :=
  snd (connect (local_redis (with_retries 5)) refused_twice).


(** An executor that answers every command with the reply [r]. *)
Definition answering (r : raw) (command : string) (args : list arg)
  : M RedisRawReply :=
  ret ("array", r).

(** A server that answers each command with the number of commands it
    received before and the command itself. *)
Definition echo : Mux.server :=
  fun before c => RArray [RInteger (Z.of_nat (List.length before)); RArray (map RString c)].

(** ** The rest of the connection objects *)

(** The call [closer.close()] on the transport numbered [conn]. *)
Definition transport_close (conn : nat) : M unit :=
  fun w m =>
    match on_close w (log m) conn with
    | None => (Value tt, record_event (Close conn) m)
    | Some e => (Throw e, record_event (Close conn) m)
    end.

(** The [Connection] interface in full: besides [exec] and [close], the
    two getters and the two asynchronous methods. *)
Record ConnectionObject : Type := {
  as_Connection : Connection;
  get_isConnected : M bool;
  get_isClosed : M bool;
  do_connect : M unit;
  do_reconnect : nat -> M (option settled);
}.

(** A [RedisConnection] seen through the interface, with executor [e]. *)
Definition RedisConnection_object (e : string -> list arg -> M RedisRawReply)
  : ConnectionObject :=
  {| as_Connection := RedisConnection_as_Connection e;
     get_isConnected := (c <- get ;; ret (isConnected c));
     get_isClosed := (c <- get ;; ret (isClosed c));
     do_connect := RedisConnection_connect;
     do_reconnect := reconnect |}.

(** The object literal of the exported [create(closer, writer, reader,
    executor)]: the getters are constants, [close()] is [closer.close()],
    and [connect] and [reconnect] are rejected. *)
Definition create (closer : nat) (e : string -> list arg -> M RedisRawReply)
  : ConnectionObject :=
  {| as_Connection := {| exec := e; connection_close := transport_close closer |};
     get_isConnected := ret true;
     get_isClosed := ret false;
     do_connect := throw (Error "not implemented");
     do_reconnect := fun _ => ret (Some (Rejected (Error "not implemented"))) |}.

(** The getters and [close] of [RedisImpl]. *)
Definition RedisImpl_isClosed (c : ConnectionObject) : M bool := get_isClosed c.

Definition RedisImpl_isConnected (c : ConnectionObject) : M bool := get_isConnected c.

Definition RedisImpl_close (c : ConnectionObject) : M unit :=
  connection_close (as_Connection c).

(** ** More vocabulary *)

(** The items of an array taken two at a time, the last one alone when
    their number is odd. *)
Fixpoint pairs_opt (arr : list raw) : list (option raw * option raw) :=
  match arr with
  | chan :: num :: rest => (Some chan, Some num) :: pairs_opt rest
  | [chan] => [(Some chan, None)]
  | [] => []
  end.


(** The exchanges of a connect are [AUTH] with the password of the options
    and [SELECT] with their database, on the connection numbered 0. *)
Definition handshake_only (o : Options.t) (s : sample) : Prop :=
  match what s with
  | Exchange conn command args =>
      conn = 0%nat /\
      ((command = "AUTH" /\
        exists pw, Options.password o = Some pw /\ args = [AString pw]) \/
       (command = "SELECT" /\
        exists i, Options.db o = Some i /\ i <> 0 /\ args = [ANumber i]))
  | Dial _ _ _ | Close _ => True
  | Tick _ => False
  end.

(** No server answers: dials are refused and exchanges fail. *)
Definition nobody_home : world :=
  {| on_dial := fun _ _ _ _ => Some (Thrown "ConnectionRefused" "connection refused");
     on_exchange := fun _ _ _ _ => Throw BadResource;
     on_close := fun _ _ => None |}.





(** ** Commands of [RedisImpl] that build their arguments *)

(** The other [exec...Reply] helpers: like [execStatusReply], they differ
    only in the type they cast the reply to. *)
Definition execIntegerReply (conn : Connection) (command : string) (args : list arg)
  : M raw :=
  r <- exec conn command args ;;
  ret (snd r).

Definition execBulkReply (conn : Connection) (command : string) (args : list arg)
  : M raw :=
  r <- exec conn command args ;;
  ret (snd r).

Definition execStatusOrNilReply (conn : Connection) (command : string)
  (args : list arg) : M raw :=
  r <- exec conn command args ;;
  ret (snd r).

(** The value of an optional field when the test [if (field)] passes. *)
Definition ifNumber (n : option Z) : option Z :=
  match n with
  | Some z => if z =? 0 then None else Some z
  | None => None
  end.

Definition ifString (s : option string) : option string :=
  match s with
  | Some (String c r) => Some (String c r)
  | Some EmptyString | None => None
  end.

(** [for (const r of raw)]: an array gives its items, a string its
    characters, and an integer or nil is not iterable. *)
Definition iterate (reply : raw) : result (list raw) :=
  match reply with
  | RArray items => Value items
  | RString s =>
      Value (map (fun c => RString (String c EmptyString)) (list_ascii_of_string s))
  | RInteger _ | RNil => Throw (TypeError "raw is not iterable")
  end.

Module RedisImpl.

Module SetOpts.
Record t : Type := {
  ex : option Z;
  px : option Z;
  mode : option string;
}.
End SetOpts.

(** The array [args] of [set] when the command is sent. *)
Definition set_args (key value : string) (opts : option SetOpts.t) : list arg :=
  let args := [AString key; AString value] in
  match opts with
  | Some o =>
      let args :=
        match ifNumber (SetOpts.ex o) with
        | Some n => args ++ [AString "EX"; ANumber n]
        | None =>
            match ifNumber (SetOpts.px o) with
            | Some n => args ++ [AString "PX"; ANumber n]
            | None => args
            end
        end in
      match ifString (SetOpts.mode o) with
      | Some md => args ++ [AString md]
      | None => args
      end
  | None => args
  end.

Definition set (conn : Connection) (key value : string) (opts : option SetOpts.t)
  : M raw :=
  match opts with
  | Some o =>
      match ifString (SetOpts.mode o) with
      | Some _ => execStatusOrNilReply conn "SET" (set_args key value opts)
      | None => execStatusReply conn "SET" (set_args key value opts)
      end
  | None => execStatusReply conn "SET" (set_args key value opts)
  end.

Module SortOpts.
Record t : Type := {
  by_ : option string;
  offset : option Z;
  count : option Z;
  patterns : option (list string);
  order : option string;
  alpha : option bool;
  destination : option string;
}.
End SortOpts.

(** The array [args] of [sort] when the command is sent. *)
Definition sort_args (key : string) (opts : option SortOpts.t) : list arg :=
  let args := [AString key] in
  match opts with
  | Some o =>
      let args :=
        match ifString (SortOpts.by_ o) with
        | Some b => args ++ [AString "BY"; AString b]
        | None => args
        end in
      let args :=
        match SortOpts.offset o, SortOpts.count o with
        | Some off, Some cnt => args ++ [AString "LIMIT"; ANumber off; ANumber cnt]
        | _, _ => args
        end in
      let args :=
        match SortOpts.patterns o with
        | Some pats =>
            fold_left (fun args pat => args ++ [AString "GET"; AString pat]) pats args
        | None => args
        end in
      let args :=
        if truthyBool (SortOpts.alpha o) then args ++ [AString "ALPHA"] else args in
      let args :=
        match ifString (SortOpts.order o) with
        | Some ord => args ++ [AString ord]
        | None => args
        end in
      match ifString (SortOpts.destination o) with
      | Some dest => args ++ [AString "STORE"; AString dest]
      | None => args
      end
  | None => args
  end.

Definition sort (conn : Connection) (key : string) (opts : option SortOpts.t)
  : M raw :=
  match opts with
  | Some o =>
      match ifString (SortOpts.destination o) with
      | Some _ => execIntegerReply conn "SORT" (sort_args key opts)
      | None => execArrayReply conn "SORT" (sort_args key opts)
      end
  | None => execArrayReply conn "SORT" (sort_args key opts)
  end.

Module ZrangeOpts.
Record t : Type := {
  withScore : option bool;
  offset : option Z;
  count : option Z;
}.
End ZrangeOpts.

Definition pushZrangeOpts (args : list arg) (opts : option ZrangeOpts.t) : list arg :=
  match opts with
  | Some o =>
      let args :=
        if truthyBool (ZrangeOpts.withScore o) then args ++ [AString "WITHSCORES"]
        else args in
      match ZrangeOpts.offset o, ZrangeOpts.count o with
      | Some off, Some cnt => args ++ [AString "LIMIT"; ANumber off; ANumber cnt]
      | _, _ => args
      end
  | None => args
  end.

Definition zrangebylex (conn : Connection) (key min max : string)
  (opts : option ZrangeOpts.t) : M raw :=
  let args := pushZrangeOpts [AString key; AString min; AString max] opts in
  execArrayReply conn "ZRANGEBYLEX" args.

Definition zrevrangebylex (conn : Connection) (key max min : string)
  (opts : option ZrangeOpts.t) : M raw :=
  let args := pushZrangeOpts [AString key; AString min; AString max] opts in
  execArrayReply conn "ZREVRANGEBYLEX" args.

Module GeoRadiusOpts.
Record t : Type := {
  withCoord : option bool;
  withDist : option bool;
  withHash : option bool;
  count : option Z;
  sort : option string;
  store : option string;
  storeDist : option string;
}.
End GeoRadiusOpts.

Definition pushGeoRadiusOpts (args : list arg) (opts : option GeoRadiusOpts.t)
  : list arg :=
  match opts with
  | None => args
  | Some o =>
      let args :=
        if truthyBool (GeoRadiusOpts.withCoord o) then args ++ [AString "WITHCOORD"]
        else args in
      let args :=
        if truthyBool (GeoRadiusOpts.withDist o) then args ++ [AString "WITHDIST"]
        else args in
      let args :=
        if truthyBool (GeoRadiusOpts.withHash o) then args ++ [AString "WITHHASH"]
        else args in
      let args :=
        match GeoRadiusOpts.count o with
        | Some n => args ++ [ANumber n]
        | None => args
        end in
      let args :=
        match GeoRadiusOpts.sort o with
        | Some srt =>
            if (srt =? "ASC")%string || (srt =? "DESC")%string
            then args ++ [AString srt] else args
        | None => args
        end in
      let args :=
        match GeoRadiusOpts.store o with
        | Some st => args ++ [AString st]
        | None => args
        end in
      match GeoRadiusOpts.storeDist o with
      | Some st => args ++ [AString st]
      | None => args
      end
  end.

Module XReadOpts.
Record t : Type := {
  count : option Z;
  block : option Z;
}.
End XReadOpts.

Module XClaimOpts.
Record t : Type := {
  group : string;
  consumer : string;
  minIdleTime : Z;
  idle : option Z;
  time : option Z;
  retryCount : option Z;
  force : option bool;
  justXId : option bool;
}.
End XClaimOpts.

(** The two shapes of the result of [xclaim]. *)
Inductive XClaimReply (XId XMessage : Type) : Type :=
| XClaimJustXId (xids : list XId)
| XClaimMessages (messages : list XMessage).

Arguments XClaimJustXId {XId XMessage} xids.
Arguments XClaimMessages {XId XMessage} messages.

Section Streams.

(** [stream.ts] is not among the sources: the identifiers that a caller
    gives, the function that writes one as a string, and the parsers of
    the replies are parameters.  A parser may raise. *)
Variable XIdInput : Type.
Variable xidstr : XIdInput -> string.
Variables XId XMessage XReadReply : Type.
Variable parseXId : string -> result XId.
Variable parseXMessage : raw -> result XMessage.
Variable parseXReadReply : raw -> result XReadReply.

(** An item of [key_xids]: an object [{key, xid}] or an array [[key, xid]]. *)
Inductive XKeyIdOrLike : Type :=
| XKeyId (key : string) (xid : XIdInput)
| XKeyIdLike (key : string) (xid : XIdInput).

(** The loop of [xread] over [key_xids], on the arrays [the_keys] and
    [the_xids]. *)
Fixpoint xread_loop (key_xids : list XKeyIdOrLike) (the_keys the_xids : list arg)
  : list arg * list arg :=
  match key_xids with
  | [] => (the_keys, the_xids)
  | XKeyIdLike a0 a1 :: rest =>
      xread_loop rest (the_keys ++ [AString a0]) (the_xids ++ [AString (xidstr a1)])
  | XKeyId key xid :: rest =>
      xread_loop rest (the_keys ++ [AString key]) (the_xids ++ [AString (xidstr xid)])
  end.

(** What [xread] spreads into the call: [args.concat(the_keys).concat(the_xids)]. *)
Definition xread_args (key_xids : list XKeyIdOrLike) (opts : option XReadOpts.t)
  : list arg :=
  let args := [] in
  let args :=
    match opts with
    | Some o =>
        let args :=
          match ifNumber (XReadOpts.count o) with
          | Some n => args ++ [AString "COUNT"; ANumber n]
          | None => args
          end in
        match ifNumber (XReadOpts.block o) with
        | Some n => args ++ [AString "BLOCK"; ANumber n]
        | None => args
        end
    | None => args
    end in
  let args := args ++ [AString "STREAMS"] in
  let '(the_keys, the_xids) := xread_loop key_xids [] [] in
  (args ++ the_keys) ++ the_xids.

Definition xread (conn : Connection) (key_xids : list XKeyIdOrLike)
  (opts : option XReadOpts.t) : M XReadReply :=
  reply <- execArrayReply conn "XREAD" (xread_args key_xids opts) ;;
  lift (parseXReadReply reply).

(** The array [args] of [xclaim]. *)
Definition xclaim_opts (opts : XClaimOpts.t) : list arg :=
  let args := [] in
  let args :=
    match ifNumber (XClaimOpts.idle opts) with
    | Some n => args ++ [AString "IDLE"] ++ [ANumber n]
    | None => args
    end in
  let args :=
    match ifNumber (XClaimOpts.time opts) with
    | Some n => args ++ [AString "TIME"] ++ [ANumber n]
    | None => args
    end in
  let args :=
    match ifNumber (XClaimOpts.retryCount opts) with
    | Some n => args ++ [AString "RETRYCOUNT"] ++ [ANumber n]
    | None => args
    end in
  let args :=
    if truthyBool (XClaimOpts.force opts) then args ++ [AString "FORCE"] else args in
  if truthyBool (XClaimOpts.justXId opts) then args ++ [AString "JUSTID"] else args.

Definition xclaim_args (key : string) (opts : XClaimOpts.t) (xids : list XIdInput)
  : list arg :=
  [AString key; AString (XClaimOpts.group opts); AString (XClaimOpts.consumer opts);
   ANumber (XClaimOpts.minIdleTime opts)] ++
  map (fun xid => AString (xidstr xid)) xids ++
  xclaim_opts opts.

(** The loop over the reply when [justXId] is set: the strings are parsed,
    the rest is passed over. *)
Fixpoint xclaim_xids (items : list raw) (xids : list XId) : result (list XId) :=
  match items with
  | [] => Value xids
  | RString r :: rest =>
      match parseXId r with
      | Value x => xclaim_xids rest (xids ++ [x])
      | Throw e => Throw e
      end
  | _ :: rest => xclaim_xids rest xids
  end.

(** The loop over the reply otherwise: what is not a string is parsed, the
    strings are passed over. *)
Fixpoint xclaim_messages (items : list raw) (messages : list XMessage)
  : result (list XMessage) :=
  match items with
  | [] => Value messages
  | RString _ :: rest => xclaim_messages rest messages
  | r :: rest =>
      match parseXMessage r with
      | Value msg => xclaim_messages rest (messages ++ [msg])
      | Throw e => Throw e
      end
  end.

Definition xclaim (conn : Connection) (key : string) (opts : XClaimOpts.t)
  (xids : list XIdInput) : M (XClaimReply XId XMessage) :=
  reply <- execArrayReply conn "XCLAIM" (xclaim_args key opts xids) ;;
  items <- lift (iterate reply) ;;
  if truthyBool (XClaimOpts.justXId opts) then
    xids <- lift (xclaim_xids items []) ;;
    ret (XClaimJustXId xids)
  else
    messages <- lift (xclaim_messages items []) ;;
    ret (XClaimMessages messages).

End Streams.

End RedisImpl.

(** The strings among the items of a reply. *)
Definition strings_of (items : list raw) : list string :=
  flat_map (fun r => match r with RString s => [s] | _ => [] end) items.

(** The items of a reply that are not strings. *)
Definition others_of (items : list raw) : list raw :=
  filter (fun r => match r with RString _ => false | _ => true end) items.

(** The key and the identifier of an item of [key_xids]. *)
Definition key_of {X : Type} (a : RedisImpl.XKeyIdOrLike X) : string :=
  match a with RedisImpl.XKeyId _ k _ | RedisImpl.XKeyIdLike _ k _ => k end.

Definition xid_of {X : Type} (a : RedisImpl.XKeyIdOrLike X) : X :=
  match a with RedisImpl.XKeyId _ _ x | RedisImpl.XKeyIdLike _ _ x => x end.

(** The words that [pushZrangeOpts] adds for [opts]. *)
Definition zrange_words (opts : option RedisImpl.ZrangeOpts.t) : list arg :=
  RedisImpl.pushZrangeOpts [] opts.

(** [opts] gives both [offset] and [count]. *)
Definition has_limit (opts : option RedisImpl.ZrangeOpts.t) : Prop :=
  exists o off cnt,
    opts = Some o /\ RedisImpl.ZrangeOpts.offset o = Some off /\
    RedisImpl.ZrangeOpts.count o = Some cnt.

(** The words of the [SORT] syntax that [sort] never sends but with a
    value after them. *)
Definition geo_keywords : list string := ["COUNT"; "STORE"; "STOREDIST"].

(** A connection whose executor answers every command with [r]. *)
Definition canned (r : raw) : Connection :=
  {| exec := answering r; connection_close := ret tt |}.

(** What [pushGeoRadiusOpts] adds for the options [o]. *)
Definition geo_words (o : RedisImpl.GeoRadiusOpts.t) : list arg :=
  (if truthyBool (RedisImpl.GeoRadiusOpts.withCoord o) then [AString "WITHCOORD"] else []) ++
  (if truthyBool (RedisImpl.GeoRadiusOpts.withDist o) then [AString "WITHDIST"] else []) ++
  (if truthyBool (RedisImpl.GeoRadiusOpts.withHash o) then [AString "WITHHASH"] else []) ++
  match RedisImpl.GeoRadiusOpts.count o with Some n => [ANumber n] | None => [] end ++
  match RedisImpl.GeoRadiusOpts.sort o with
  | Some srt =>
      if (srt =? "ASC")%string || (srt =? "DESC")%string then [AString srt] else []
  | None => []
  end ++
  match RedisImpl.GeoRadiusOpts.store o with Some st => [AString st] | None => [] end ++
  match RedisImpl.GeoRadiusOpts.storeDist o with Some st => [AString st] | None => [] end.

(** The words [COUNT] and [BLOCK] of [xread] and [xreadgroup], each with
    its number, for the numbers that are not zero. *)
Definition xread_words (opts : option RedisImpl.XReadOpts.t) : list arg :=
  match opts with
  | Some o =>
      match ifNumber (RedisImpl.XReadOpts.count o) with
      | Some n => [AString "COUNT"; ANumber n]
      | None => []
      end ++
      match ifNumber (RedisImpl.XReadOpts.block o) with
      | Some n => [AString "BLOCK"; ANumber n]
      | None => []
      end
  | None => []
  end.

(** Options of [georadius] that ask for ten results, stored under the key
    "STORE". *)
Definition ten_stored : RedisImpl.GeoRadiusOpts.t :=
  {| RedisImpl.GeoRadiusOpts.withCoord := None;
     RedisImpl.GeoRadiusOpts.withDist := Some true;
     RedisImpl.GeoRadiusOpts.withHash := None;
     RedisImpl.GeoRadiusOpts.count := Some 10;
     RedisImpl.GeoRadiusOpts.sort := Some "ASC";
     RedisImpl.GeoRadiusOpts.store := Some "STORE";
     RedisImpl.GeoRadiusOpts.storeDist := None |}.

(** Options of [xclaim] for the identifiers only, and for the messages. *)
Definition claim_opts (just : bool) : RedisImpl.XClaimOpts.t :=
  {| RedisImpl.XClaimOpts.group := "workers";
     RedisImpl.XClaimOpts.consumer := "w1";
     RedisImpl.XClaimOpts.minIdleTime := 1000;
     RedisImpl.XClaimOpts.idle := None;
     RedisImpl.XClaimOpts.time := None;
     RedisImpl.XClaimOpts.retryCount := None;
     RedisImpl.XClaimOpts.force := None;
     RedisImpl.XClaimOpts.justXId := Some just |}.

(** A reply to [XCLAIM] with two identifiers and one message. *)
Definition mixed_reply : raw :=
  RArray [RString "1-0"; RArray [RString "2-0"; RArray [RString "f"; RString "v"]];
          RString "3-0"].





(** ** The interval timer of [reconnect], callbacks overlapping *)

(** Lines 2163-2172 of [thunkifyConnect]: what follows the dial, up to
    the handshake. *)
Definition adopt (conn : nat) (o : Options.t) : M unit :=
  when (truthyString (Options.name o))
       (modify (set_name (Options.name o))) ;;
  match Options.maxRetryCount o with
  | Some n => when (negb (n =? 0)) (modify (set_maxRetryCount n))
  | None => ret tt
  end ;;
  modify (set_transport conn) ;;
  c <- get ;;
  modify (set_executor (muxExecutor (maxRetryCount c >? 0))) ;;
  modify (set_isClosed false) ;;
  modify (set_isConnected true).

Module Interval.

(** [setInterval] calls the callback every 1200 ms until [clearInterval],
    whether or not an earlier call is over: the callback is an [async]
    function, and a call of it is suspended at each [await] while the
    timer and the other calls go on.  A call of the callback is
    represented by the [await] at which it is suspended.  The outcome of
    an operation of the world is decided when the operation starts, from
    the log at that moment, and is kept until the call is resumed. *)
Inductive point : Type :=
| AwaitCeilingClose                         (* [await this.close()], line 2248 *)
| AwaitClose                                (* [await this.close()], line 2254 *)
| AwaitDial (conn : result nat)             (* [await Deno.connect(dialOpts)] *)
| AwaitAuth (reply : result RedisRawReply)  (* [await this.authenticate(...)] *)
| AwaitSelect (reply : result RedisRawReply) (* [await this.selectDb(...)] *)
| AwaitConnect (outcome : result unit)      (* [await this.connect()], line 2255 *)
| AwaitPing (reply : result RedisRawReply). (* [await sendCommand(...)], line 2257 *)

(** The connection object and the log, which all the calls share; whether
    the interval is set; the promise that [reconnect()] returned, [None]
    while it is pending; the calls of the callback that are suspended,
    oldest first; the errors that escaped from a call (unhandled
    rejections); and how many times the timer has fired. *)
Record state : Type := {
  client : machine;
  interval : bool;
  promise : option (result unit);
  running : list point;
  escaped : list exn;
  fired : nat;
}.

Definition set_client (m : machine) (st : state) : state :=
  {| client := m; interval := interval st; promise := promise st;
     running := running st; escaped := escaped st; fired := fired st |}.

Definition set_running (r : list point) (st : state) : state :=
  {| client := client st; interval := interval st; promise := promise st;
     running := r; escaped := escaped st; fired := fired st |}.

Definition clearInterval (st : state) : state :=
  {| client := client st; interval := false; promise := promise st;
     running := running st; escaped := escaped st; fired := fired st |}.

(** [resolve()] and [reject(...)]: a promise is settled once. *)
Definition settle (s : result unit) (st : state) : state :=
  {| client := client st; interval := interval st;
     promise := match promise st with Some s0 => Some s0 | None => Some s end;
     running := running st; escaped := escaped st; fired := fired st |}.

Definition escape (e : exn) (st : state) : state :=
  {| client := client st; interval := interval st; promise := promise st;
     running := running st; escaped := escaped st ++ [e]; fired := fired st |}.

(** The timer fires: the [k]-th time, [k] periods after it was set. *)
Definition tick (st : state) : state :=
  {| client := record_event (Tick (retry_interval_ms * Z.of_nat (S (fired st))))
                 (client st);
     interval := interval st; promise := promise st;
     running := running st; escaped := escaped st; fired := S (fired st) |}.

(** [catch (err) {}] and [finally { this.retryCount++; }]: the call is
    over. *)
Definition caught (st : state) : option point * state :=
  let c := self (client st) in
  (None,
   set_client {| self := set_retryCount (retryCount c + 1) c;
                 log := log (client st) |} st).

(** [try { await this.close(); ...]: [close()] runs at once, and the call
    is suspended if it returns. *)
Definition enter_try (w : world) (st : state) : option point * state :=
  match close w (client st) with
  | (Throw _, m1) => caught (set_client m1 st)
  | (Value _, m1) => (Some AwaitClose, set_client m1 st)
  end.

(** A call of the callback, up to its first [await].  An error of
    [close()] in the [if] is outside the [try]: it escapes. *)
Definition start (w : world) (st : state) : option point * state :=
  let c := self (client st) in
  if retryCount c >? maxRetryCount c then
    match close w (client st) with
    | (Throw e, m1) => (None, escape e (set_client m1 st))
    | (Value _, m1) => (Some AwaitCeilingClose, set_client m1 st)
    end
  else enter_try w st.

(** [catch (error) { this.close(); throw error; }] of [thunkifyConnect]. *)
Definition handshake_failed (w : world) (error : exn) (st : state)
  : option point * state :=
  match close w (client st) with
  | (Throw e, m1) => (Some (AwaitConnect (Throw e)), set_client m1 st)
  | (Value _, m1) => (Some (AwaitConnect (Throw error)), set_client m1 st)
  end.

(** [if (options?.db) await this.selectDb(options.db);] and the return. *)
Definition select_or_return (w : world) (st : state) : option point * state :=
  let o := options (self (client st)) in
  if truthyNumber (Options.db o) then
    let '(r, m1) := selectDb (Options.db o) w (client st) in
    (Some (AwaitSelect r), set_client m1 st)
  else (Some (AwaitConnect (Value tt)), st).

(** A suspended call goes on, up to its next [await] or to its end.  What
    it reads of the connection object it reads as the object is then. *)
Definition resume (w : world) (p : point) (st : state) : option point * state :=
  let c := self (client st) in
  let o := options c in
  match p with
  | AwaitCeilingClose =>
      enter_try w
        (settle (Throw (Error "Could not reconnect")) (clearInterval st))
  | AwaitClose =>
      match parsePortLike (port c) with
      | Throw e => (Some (AwaitConnect (Throw e)), st)
      | Value dialPort =>
          if negb (isSafeInteger dialPort)
          then (Some (AwaitConnect (Throw (Error "deno-redis: opts.port is invalid"))),
                st)
          else
            let '(r, m1) :=
              dial (truthyBool (Options.tls o)) (hostname c) (portValue dialPort)
                w (client st) in
            (Some (AwaitDial r), set_client m1 st)
      end
  | AwaitDial (Throw e) => (Some (AwaitConnect (Throw e)), st)
  | AwaitDial (Value conn) =>
      let st1 := set_client (snd (adopt conn o w (client st))) st in
      match Options.password o with
      | Some pw =>
          let '(r, m2) := authenticate pw w (client st1) in
          (Some (AwaitAuth r), set_client m2 st1)
      | None => select_or_return w st1
      end
  | AwaitAuth (Throw e) => handshake_failed w e st
  | AwaitAuth (Value _) => select_or_return w st
  | AwaitSelect (Throw e) => handshake_failed w e st
  | AwaitSelect (Value _) => (Some (AwaitConnect (Value tt)), st)
  | AwaitConnect (Throw _) => caught st
  | AwaitConnect (Value _) =>
      let '(r, m1) := sendCommand (writer c) (reader c) "PING" [] w (client st) in
      (Some (AwaitPing r), set_client m1 st)
  | AwaitPing (Throw _) => caught st
  | AwaitPing (Value _) =>
      caught
        (settle (Value tt)
           (clearInterval
              (set_client
                 {| self := set_retryCount 0 (set_isConnected true c);
                    log := log (client st) |} st)))
  end.

(** What happens next is the timer firing or one of the suspended calls
    going on. *)
Inductive action : Type :=
| Fire
| Resume (i : nat).

Definition replace (i : nat) (p : option point) (r : list point) : list point :=
  firstn i r ++ match p with Some p' => [p'] | None => [] end ++ skipn (S i) r.

(** A timer that is cleared does not fire, and there is nothing to resume
    where no call is suspended. *)
Definition step (w : world) (a : action) (st : state) : state :=
  match a with
  | Fire =>
      if interval st then
        let '(p, st1) := start w (tick st) in
        set_running (running st ++ match p with Some p' => [p'] | None => [] end) st1
      else st
  | Resume i =>
      match nth_error (running st) i with
      | Some p =>
          let '(p', st1) := resume w p st in
          set_running (replace i p' (running st)) st1
      | None => st
      end
  end.

Definition run (w : world) (sched : list action) (st : state) : state :=
  fold_left (fun st a => step w a st) sched st.

(** [reconnect()] up to the moment it returns its promise: the probe, and
    the timer set if the probe fails. *)
Definition begin (w : world) (m : machine) : state :=
  let c := self m in
  match reader c with
  | None =>
      {| client := m; interval := false;
         promise := Some (Throw (TypeError "Cannot read properties of undefined"));
         running := []; escaped := []; fired := 0 |}
  | Some _ =>
      match sendCommand (writer c) (reader c) "PING" [] w m with
      | (Value _, m1) =>
          {| client := {| self := set_isConnected true (self m1); log := log m1 |};
             interval := false; promise := Some (Value tt);
             running := []; escaped := []; fired := 0 |}
      | (Throw _, m1) =>
          {| client := {| self := set_isConnected false (self m1); log := log m1 |};
             interval := true; promise := None;
             running := []; escaped := []; fired := 0 |}
      end
  end.

(** [reconnect()] and what follows it, in the order [sched]. *)
Definition reconnect (sched : list action) (w : world) (m : machine) : state :=
  run w sched (begin w m).

(** No call of the callback overlaps the next: when the timer fires, no
    earlier call is suspended. *)
Fixpoint no_overlap (w : world) (sched : list action) (st : state) : bool :=
  match sched with
  | [] => true
  | a :: rest =>
      match a, running st with
      | Fire, _ :: _ => negb (interval st)
      | _, _ => true
      end && no_overlap w rest (step w a st)
  end.

(** How many times the schedule lets the timer fire. *)
Definition fires (sched : list action) : nat :=
  List.length (filter (fun a => match a with Fire => true | Resume _ => false end) sched).

(** A call of the callback run to its end before anything else happens:
    it has seven [await]s at most. *)
Definition one_call : list action := Fire :: repeat (Resume 0%nat) 7.

(** [n] periods of the timer, each call over before the next tick. *)
Definition one_at_a_time (n : nat) : list action := List.concat (repeat one_call n).

(** The number of [await]s that a suspended call has before it, at most. *)
Definition rank (p : point) : nat :=
  match p with
  | AwaitCeilingClose => 7
  | AwaitClose => 6
  | AwaitDial _ => 5
  | AwaitAuth _ => 4
  | AwaitSelect _ => 3
  | AwaitConnect _ => 2
  | AwaitPing _ => 1
  end.

(** The state in which [reconnect()] sets the timer, on client [m]. *)
Definition started (m : machine) : state :=
  {| client := m; interval := true; promise := None;
     running := []; escaped := []; fired := 0 |}.

End Interval.

(** The outcome of a timer callback run alone, as [retry_tick] gives it,
    in the state of the timer. *)
Definition after_call (st : Interval.state) (r : result (option settled))
  (m' : machine) : Interval.state :=
  {| Interval.client := m';
     Interval.interval :=
       match r with
       | Value (Some Resolved) | Value (Some (Rejected _)) => false
       | _ => Interval.interval st
       end;
     Interval.promise :=
       match Interval.promise st with
       | Some s => Some s
       | None =>
           match r with
           | Value (Some Resolved) => Some (Value tt)
           | Value (Some (Rejected e)) => Some (Throw e)
           | _ => None
           end
       end;
     Interval.running := [];
     Interval.escaped :=
       match r with
       | Value (Some (Uncaught e)) => Interval.escaped st ++ [e]
       | _ => Interval.escaped st
       end;
     Interval.fired := S (Interval.fired st) |}.

(** * Properties *)

Ltac run :=
  unfold close, closer_close, try_catch, try_finally, attempt, bind, ret,
    throw, get, modify, observe, when, lift in *; simpl in *.

(** ** [close] *)

Lemma close_flags (w : world) (m : machine) :
  isClosed (self (snd (close w m))) = true /\
  isConnected (self (snd (close w m))) = false.
Proof.
  run. destruct (closer (self m)) as [conn|]; simpl.
  - destruct (on_close w (log m) conn) as [e|]; simpl.
    + destruct e; simpl; auto.
    + auto.
  - auto.
Qed.

(** [close] changes the connection object in one way only, whatever the
    transport answers. *)
Lemma close_self (w : world) (m : machine) :
  self (snd (close w m)) = set_isConnected false (set_isClosed true (self m)).
Proof.
  run. destruct (closer (self m)) as [conn|]; simpl.
  - destruct (on_close w (log m) conn) as [e|]; simpl.
    + destruct e; reflexivity.
    + reflexivity.
  - reflexivity.
Qed.

Lemma close_outcome (w : world) (m : machine) :
  fst (close w m) =
  match closer (self m) with
  | Some conn =>
      match on_close w (log m) conn with
      | Some (Thrown c msg) => Throw (Thrown c msg)
      | Some BadResource | None => Value tt
      end
  | None => Throw (TypeError "Cannot read properties of undefined")
  end.
Proof.
  run. destruct (closer (self m)) as [conn|]; simpl.
  - destruct (on_close w (log m) conn) as [e|]; simpl.
    + destruct e; reflexivity.
    + reflexivity.
  - reflexivity.
Qed.

Lemma close_log (w : world) (m : machine) :
  log (snd (close w m)) =
  match closer (self m) with
  | Some conn =>
      log m ++ [ {| what := Close conn; seenConnected := false; seenClosed := true |} ]
  | None => log m
  end.
Proof.
  run. destruct (closer (self m)) as [conn|]; simpl.
  - destruct (on_close w (log m) conn) as [e|]; simpl.
    + destruct e; reflexivity.
    + reflexivity.
  - reflexivity.
Qed.

Lemma set_flags_twice (c : RedisConnection) :
  set_isConnected false (set_isClosed true
    (set_isConnected false (set_isClosed true c))) =
  set_isConnected false (set_isClosed true c).
Proof. destruct c; reflexivity. Qed.

Lemma close_times_step (n : nat) (w : world) (m : machine) :
  close_times (S n) w m =
  (let '(rs, m') := close_times n w (snd (close w m)) in
   match rs with
   | Value l => (Value (fst (close w m) :: l), m')
   | Throw e => (Throw e, m')
   end).
Proof.
  simpl. unfold bind at 1. unfold attempt.
  destruct (close w m) as [r m1]; simpl.
  unfold bind. destruct (close_times n w m1) as [[l|e] m2]; reflexivity.
Qed.

Lemma close_times_self (n : nat) (w : world) (m : machine) :
  self (snd (close_times (S n) w m)) =
  set_isConnected false (set_isClosed true (self m)).
Proof.
  revert m. induction n as [|n IH]; intros m.
  - rewrite close_times_step. simpl. apply close_self.
  - rewrite close_times_step.
    destruct (close_times (S n) w (snd (close w m))) as [[l|e] m2] eqn:E;
      simpl; specialize (IH (snd (close w m))); rewrite E in IH; simpl in IH;
      rewrite IH, close_self; apply set_flags_twice.
Qed.

Lemma close_times_quiet (n : nat) (w : world) (m : machine) :
  closes_quietly w ->
  closer (self m) <> None ->
  fst (close_times n w m) = Value (repeat (Value tt) n).
Proof.
  intros Hq. revert m. induction n as [|n IH]; intros m Hc.
  - reflexivity.
  - rewrite close_times_step.
    assert (Hc' : closer (self (snd (close w m))) <> None).
    { rewrite close_self. destruct (self m); exact Hc. }
    specialize (IH _ Hc').
    destruct (close_times n w (snd (close w m))) as [[l|e] m2]; simpl in *.
    + inversion IH; subst. rewrite close_outcome.
      destruct (closer (self m)) as [conn|]; [|congruence].
      destruct (on_close w (log m) conn) as [[|c msg]|] eqn:E; try reflexivity.
      exfalso. exact (Hq _ _ _ _ E).
    + discriminate.
Qed.

(** C9: when [close()] is over, with or without an error from the
    underlying closer, [isClosed] is true and [isConnected] is false; and
    the transport's close, if it is called at all, is called with both
    flags already in that state. *)
Theorem close_sets_flags_first (w : world) (m : machine) :
  isClosed (self (snd (close w m))) = true /\
  isConnected (self (snd (close w m))) = false /\
  (log (snd (close w m)) = log m \/
   exists conn,
     log (snd (close w m)) =
     log m ++ [ {| what := Close conn; seenConnected := false; seenClosed := true |} ]).
Proof.
  destruct (close_flags w m) as [H1 H2].
  repeat split; auto.
  rewrite close_log. destruct (closer (self m)) as [conn|].
  - right. exists conn. reflexivity.
  - left. reflexivity.
Qed.

(** C4, as the code has it: [close()] is idempotent on the connection
    object - after [n >= 1] calls it is what it is after one call, closed
    and not connected - and a [BadResource] error of the transport is
    suppressed, so that over a transport that raises nothing else no call
    raises; any other error of the transport's close is passed on to the
    caller. *)
Theorem close_idempotent (n : nat) (w : world) (m : machine) :
  (1 <= n)%nat ->
  self (snd (close_times n w m)) = self (snd (close w m)) /\
  isClosed (self (snd (close_times n w m))) = true /\
  isConnected (self (snd (close_times n w m))) = false /\
  (forall conn,
     closer (self m) = Some conn ->
     on_close w (log m) conn = Some BadResource ->
     fst (close w m) = Value tt) /\
  (closes_quietly w -> closer (self m) <> None ->
   fst (close_times n w m) = Value (repeat (Value tt) n)) /\
  (forall conn c msg,
     closer (self m) = Some conn ->
     on_close w (log m) conn = Some (Thrown c msg) ->
     fst (close w m) = Throw (Thrown c msg)).
Proof.
  intros Hn. destruct n as [|n]; [lia|].
  rewrite close_times_self, close_self.
  split; [reflexivity|]. split; [destruct (self m); reflexivity|].
  split; [destruct (self m); reflexivity|].
  split; [|split].
  - intros conn Hc Hw. rewrite close_outcome, Hc, Hw. reflexivity.
  - intros Hq Hc. apply close_times_quiet; assumption.
  - intros conn c msg Hc Hw. rewrite close_outcome, Hc, Hw. reflexivity.
Qed.

(** Three calls over a transport that was closed before. *)
Lemma close_idempotent_witness :
  self (snd (close_times 3 closed_before (connected no_options))) =
  self (snd (close closed_before (connected no_options))) /\
  fst (close_times 3 closed_before (connected no_options)) =
  Value [Value tt; Value tt; Value tt].
Proof.
  pose proof (close_idempotent 3 closed_before (connected no_options)) as H.
  destruct H as (H1 & _ & _ & _ & H5 & _); [lia|].
  split; [exact H1|].
  apply H5.
  - intros l conn c msg. simpl. discriminate.
  - simpl. discriminate.
Defined.

(** C4, as stated, fails: [close()] raises when the transport's close
    raises an error that is not [BadResource]. *)
Lemma close_raises :
  fst (close stuck_closer (connected no_options)) = Throw (Error "close failed") /\
  ~ (forall w m, fst (close w m) = Value tt).
Proof.
  split; [reflexivity|].
  intros H. specialize (H stuck_closer (connected no_options)). discriminate H.
Qed.

(** ** [quit] *)




(** ** [connect] *)

Lemma connectThunkified_run (h : string) (p : jsval) (o : Options.t)
  (w : world) (m : machine) (z : Z) :
  parsePortLike p = Value (Int z) ->
  isSafeInteger (Int z) = true ->
  connectThunkified h p o w m =
  let tls := truthyBool (Options.tls o) in
  match on_dial w (log m) tls h z with
  | Some e => (Throw e, record_event (Dial tls h z) m)
  | None =>
      let conn := next_conn (log m) in
      let c1 := after_dial conn o (self m) in
      let '(failure, l) :=
        perform w (log m ++ [dial_sample m tls h z]) conn (handshake o) in
      match failure with
      | None => (Value tt, {| self := c1; log := l |})
      | Some e0 =>
          (Throw (surfaced (on_close w l conn) e0),
           {| self := set_isConnected false (set_isClosed true c1);
              log := l ++ [close_sample conn] |})
      end
  end.
Proof.
  intros Hp Hs.
  unfold connectThunkified, bind, lift. rewrite Hp.
  remember (Int z) as n. rewrite Hs. subst n.
  change (negb true) with false. cbv iota beta.
  unfold dial, portValue.
  destruct (on_dial w (log m) (truthyBool (Options.tls o)) h z) as [e|] eqn:Hd;
    [reflexivity|].
  cbv zeta.
  destruct m as [c l0]. destruct c. destruct o as [otls odb opw oname omax].
  unfold handshake, after_dial, configured_maxRetryCount, dial_sample, record_event,
    authenticate, selectDb, sendCommand, truthyNumber.
  run. unfold handshake_sample, close_sample, surfaced.
  destruct oname as [[|a s]|]; simpl;
    (destruct omax as [n|]; [destruct (n =? 0) eqn:Hn|]; simpl);
    (destruct opw as [pw|]; simpl);
    (destruct odb as [i|]; [destruct (i =? 0) eqn:Hi|]; simpl);
    repeat match goal with
      | |- context [on_exchange ?a ?b ?c ?d ?e] =>
          destruct (on_exchange a b c d e) eqn:?; simpl;
          unfold handshake_sample, record_event; simpl
      | |- context [on_close ?a ?b ?c] =>
          let E := fresh "E" in
          destruct (on_close a b c) as [[|? ?]|] eqn:E; simpl;
          unfold handshake_sample, record_event; simpl
      end;
    try reflexivity.
Qed.

Lemma connectThunkified_refused (h : string) (p : jsval) (o : Options.t)
  (w : world) (m : machine) :
  (forall e, parsePortLike p = Throw e ->
     connectThunkified h p o w m = (Throw e, m)) /\
  (forall n, parsePortLike p = Value n -> isSafeInteger n = false ->
     connectThunkified h p o w m =
     (Throw (Error "deno-redis: opts.port is invalid"), m)).
Proof.
  split.
  - intros e Hp. unfold connectThunkified, bind, lift. rewrite Hp. reflexivity.
  - intros n Hp Hs. unfold connectThunkified, bind, lift. rewrite Hp, Hs.
    reflexivity.
Qed.

(** The port that [connect] dials, when the port option passes the tests. *)
Lemma port_cases (p : jsval) :
  (exists z, parsePortLike p = Value (Int z) /\ isSafeInteger (Int z) = true) \/
  (exists e, parsePortLike p = Throw e) \/
  (exists n, parsePortLike p = Value n /\ isSafeInteger n = false).
Proof.
  destruct (parsePortLike p) as [n|e] eqn:Hp.
  - destruct (isSafeInteger n) eqn:Hs.
    + left. destruct n as [z| |]; try discriminate. exists z. auto.
    + right. right. exists n. auto.
  - right. left. exists e. reflexivity.
Qed.

(** The whole course of [connect], for a port that passes the tests. *)
Lemma connect_run (opts : RedisConnectOptions) (w : world) (z : Z) :
  let o := connect_options opts in
  let h := connect_hostname opts in
  let tls := truthyBool (Options.tls o) in
  let d := {| what := Dial tls h z; seenConnected := false; seenClosed := false |} in
  let c0 := new_RedisConnection h (port_or_default (connect_port opts)) o in
  parsePortLike (port_or_default (connect_port opts)) = Value (Int z) ->
  isSafeInteger (Int z) = true ->
  isConnected (after_dial 0 o c0) = true /\
  isClosed (after_dial 0 o c0) = false /\
  match on_dial w [] tls h z with
  | Some e => connect opts w = (Throw e, {| self := c0; log := [d] |})
  | None =>
      match perform w [d] 0 (handshake o) with
      | (None, l) =>
          connect opts w = (Value tt, {| self := after_dial 0 o c0; log := l |})
      | (Some e0, l) =>
          connect opts w =
          (Throw (surfaced (on_close w l 0) e0),
           {| self := set_isConnected false (set_isClosed true (after_dial 0 o c0));
              log := l ++ [close_sample 0] |})
      end
  end.
Proof.
  intros o h tls d c0 Hp Hs.
  split; [reflexivity|]. split; [reflexivity|].
  unfold connect, RedisConnection_connect, bind, get. simpl.
  rewrite (connectThunkified_run _ _ _ w _ z Hp Hs). simpl.
  fold o h tls.
  destruct (on_dial w [] tls h z) as [e|]; [reflexivity|].
  unfold dial_sample. simpl. fold d. fold c0.
  change (next_conn []) with 0%nat.
  destruct (perform w [d] 0 (handshake o)) as [[e0|] l]; reflexivity.
Qed.


(** C1, as the code has it: with a port that passes the tests, [connect]
    dials (TLS when [tls] is set) [(hostname, port)]; if the dial fails
    nothing else is done; otherwise it marks the client connected and not
    closed, and only then makes the exchanges of the handshake, in order,
    each with the client already flagged connected: [AUTH] if a password
    is set, [SELECT db] if [db] is set and not zero.  If they all succeed
    the client stays connected.  At the first that fails, [close()] is
    called (the flags are reset and the transport closed) and the failure
    is passed on to the caller, unless the transport's close raises an
    error other than [BadResource], which is raised in its place. *)
Theorem connect_sequence (opts : RedisConnectOptions) (w : world) (z : Z) :
  let o := connect_options opts in
  let h := connect_hostname opts in
  let tls := truthyBool (Options.tls o) in
  let d := {| what := Dial tls h z; seenConnected := false; seenClosed := false |} in
  let c0 := new_RedisConnection h (port_or_default (connect_port opts)) o in
  parsePortLike (port_or_default (connect_port opts)) = Value (Int z) ->
  isSafeInteger (Int z) = true ->
  isConnected (after_dial 0 o c0) = true /\
  isClosed (after_dial 0 o c0) = false /\
  match on_dial w [] tls h z with
  | Some e => connect opts w = (Throw e, {| self := c0; log := [d] |})
  | None =>
      match perform w [d] 0 (handshake o) with
      | (None, l) =>
          connect opts w = (Value tt, {| self := after_dial 0 o c0; log := l |})
      | (Some e0, l) =>
          connect opts w =
          (Throw (surfaced (on_close w l 0) e0),
           {| self := set_isConnected false (set_isClosed true (after_dial 0 o c0));
              log := l ++ [close_sample 0] |})
      end
  end.
Proof.
  exact (connect_run opts w z).
Qed.

(** A connect with a password and database 2, everything succeeding. *)
Lemma connect_sequence_witness :
  connect (local_redis (with_password "secret" 2)) calm =
  (Value tt,
   {| self := after_dial 0 (with_password "secret" 2)
                (new_RedisConnection "127.0.0.1" (JNumber (Int 6379))
                   (with_password "secret" 2));
      log := [ {| what := Dial false "127.0.0.1" 6379;
                  seenConnected := false; seenClosed := false |};
               handshake_sample 0 ("AUTH", [AString "secret"]);
               handshake_sample 0 ("SELECT", [ANumber 2]) ] |}).
Proof.
  exact (proj2 (proj2
    (connect_sequence (local_redis (with_password "secret" 2)) calm 6379
       eq_refl eq_refl))).
Defined.

(** C1, as stated, fails: the client is marked connected before the
    handshake, not after it; the [AUTH] exchange of a fresh client is made
    with [isConnected] already true.  And when [AUTH] fails and the
    transport's close then raises, it is the error of the close that
    [connect] raises, not the failure of [AUTH]. *)
Lemma connect_marks_before_auth :
  log (snd (connect (local_redis (with_password "secret" 0)) calm)) =
  [ {| what := Dial false "127.0.0.1" 6379;
       seenConnected := false; seenClosed := false |};
    {| what := Exchange 0 "AUTH" [AString "secret"];
       seenConnected := true; seenClosed := false |} ] /\
  fst (connect (local_redis (with_password "secret" 0)) refused_and_stuck) =
    Throw (Error "close failed") /\
  ~ (forall opts w s,
       In s (log (snd (connect opts w))) ->
       isExchange (what s) = true ->
       seenConnected s = false).
Proof.
  split; [reflexivity|]. split; [reflexivity|].
  intros H.
  specialize (H (local_redis (with_password "secret" 0)) calm
                {| what := Exchange 0 "AUTH" [AString "secret"];
                   seenConnected := true; seenClosed := false |}).
  simpl in H. discriminate H; auto.
Qed.

(** ** [maxRetryCount] *)

Lemma connect_self_cases (opts : RedisConnectOptions) (w : world) :
  let o := connect_options opts in
  let c0 := new_RedisConnection (connect_hostname opts)
              (port_or_default (connect_port opts)) o in
  self (snd (connect opts w)) = c0 \/
  self (snd (connect opts w)) = after_dial 0 o c0 \/
  self (snd (connect opts w)) =
    set_isConnected false (set_isClosed true (after_dial 0 o c0)).
Proof.
  intros o c0.
  destruct (port_cases (port_or_default (connect_port opts)))
    as [(z & Hp & Hs) | [(e & Hp) | (n & Hp & Hs)]].
  - pose proof (connect_run opts w z Hp Hs) as (_ & _ & H).
    fold o c0 in H.
    destruct (on_dial w [] (truthyBool (Options.tls o)) (connect_hostname opts) z).
    + rewrite H. left. reflexivity.
    + destruct (perform w _ 0 (handshake o)) as [[e0|] l]; rewrite H; auto.
  - left. unfold connect, RedisConnection_connect, bind, get. simpl.
    rewrite (proj1 (connectThunkified_refused _ _ _ w _) e Hp). reflexivity.
  - left. unfold connect, RedisConnection_connect, bind, get. simpl.
    rewrite (proj2 (connectThunkified_refused _ _ _ w _) n Hp Hs). reflexivity.
Qed.

Lemma after_dial_executor (conn : nat) (o : Options.t) (h : string) (p : jsval) :
  let c := after_dial conn o (new_RedisConnection h p o) in
  maxRetryCount c = configured_maxRetryCount o /\
  executor c = Some (muxExecutor (configured_maxRetryCount o >? 0)).
Proof.
  unfold after_dial, configured_maxRetryCount, truthyNumber.
  destruct o as [otls odb opw oname omax]; simpl.
  destruct omax as [n|]; simpl.
  - destruct (n =? 0) eqn:Hn; simpl.
    + apply Z.eqb_eq in Hn. subst n.
      destruct (truthyString oname); simpl; auto.
    + destruct (truthyString oname); simpl; auto.
  - destruct (truthyString oname); simpl; auto.
Qed.

(** C6: [maxRetryCount] is 0 on a new connection and stays 0 unless the
    option sets it, and the executor that [connect] creates is told to
    retry on reconnect exactly when the configured [maxRetryCount] is
    greater than 0. *)
Theorem retry_enabled_iff (opts : RedisConnectOptions) (w : world)
  (ex : CommandExecutor) :
  executor (self (snd (connect opts w))) = Some ex ->
  maxRetryCount (new_RedisConnection (connect_hostname opts)
                   (port_or_default (connect_port opts))
                   (connect_options opts)) = 0 /\
  maxRetryCount (self (snd (connect opts w))) =
    configured_maxRetryCount (connect_options opts) /\
  (Options.maxRetryCount (connect_options opts) = None ->
   configured_maxRetryCount (connect_options opts) = 0) /\
  (attemptReconnect ex = true <->
   0 < configured_maxRetryCount (connect_options opts)).
Proof.
  intros Hex.
  split; [reflexivity|].
  pose proof (after_dial_executor 0 (connect_options opts) (connect_hostname opts)
                (port_or_default (connect_port opts))) as [Hm He].
  assert (Hd : configured_maxRetryCount (connect_options opts) = 0 ->
               Options.maxRetryCount (connect_options opts) = None \/
               Options.maxRetryCount (connect_options opts) = Some 0).
  { unfold configured_maxRetryCount.
    destruct (Options.maxRetryCount (connect_options opts)); intros; subst; auto. }
  destruct (connect_self_cases opts w) as [H | [H | H]]; rewrite H in *.
  - discriminate Hex.
  - rewrite He in Hex. inversion Hex; subst ex. rewrite Hm.
    split; [reflexivity|]. split.
    + intros Hn. unfold configured_maxRetryCount. rewrite Hn. reflexivity.
    + simpl. rewrite Z.gtb_ltb. apply Z.ltb_lt.
  - assert (He' : executor (set_isConnected false (set_isClosed true
                    (after_dial 0 (connect_options opts)
                       (new_RedisConnection (connect_hostname opts)
                          (port_or_default (connect_port opts))
                          (connect_options opts))))) =
                  Some (muxExecutor (configured_maxRetryCount (connect_options opts) >? 0))).
    { rewrite <- He. reflexivity. }
    rewrite He' in Hex. inversion Hex; subst ex.
    split; [rewrite <- Hm; reflexivity|]. split.
    + intros Hn. unfold configured_maxRetryCount. rewrite Hn. reflexivity.
    + simpl. rewrite Z.gtb_ltb. apply Z.ltb_lt.
Qed.

(** With [maxRetryCount] 3 the executor retries; without the option it
    does not. *)
Lemma retry_enabled_iff_witness :
  (attemptReconnect (muxExecutor true) = true <->
   0 < configured_maxRetryCount (with_retries 3)) /\
  (attemptReconnect (muxExecutor false) = true <->
   0 < configured_maxRetryCount no_options).
Proof.
  split.
  - exact (proj2 (proj2 (proj2
      (retry_enabled_iff (local_redis (with_retries 3)) calm (muxExecutor true)
         eq_refl)))).
  - exact (proj2 (proj2 (proj2
      (retry_enabled_iff (local_redis no_options) calm (muxExecutor false)
         eq_refl)))).
Defined.

(** ** Port parsing *)

Ltac each_ascii c :=
  destruct c as [[] [] [] [] [] [] [] []].

Lemma digitValue_decimal (c : ascii) :
  digitValue 10 c = if isDecimalDigit c then Some (code c - 48) else None.
Proof. each_ascii c; reflexivity. Qed.

Lemma digit_not_space (c : ascii) :
  isDecimalDigit c = true -> isWhiteSpace c = false.
Proof. each_ascii c; intros H; try discriminate H; reflexivity. Qed.

Lemma digit_not_sign (c : ascii) (r : string) :
  isDecimalDigit c = true -> stripSign (String c r) = (1, String c r).
Proof. each_ascii c; intros H; try discriminate H; reflexivity. Qed.

Lemma digit_not_x (c : ascii) :
  isDecimalDigit c = true ->
  negb (code c =? 120) && negb (code c =? 88) = true.
Proof. each_ascii c; intros H; try discriminate H; reflexivity. Qed.

Lemma no_hex_prefix (c : ascii) (r : string) :
  match r with
  | String c2 _ => negb (code c2 =? 120) && negb (code c2 =? 88)
  | EmptyString => true
  end = true ->
  stripHexPrefix (String c r) = (10, String c r).
Proof.
  intros H. destruct r as [|c2 r2].
  - each_ascii c; reflexivity.
  - each_ascii c; try reflexivity.
    each_ascii c2; try reflexivity; discriminate H.
Qed.

Lemma digitsPrefix_numeral (s rest : string) :
  allDecimalDigits s = true ->
  match rest with
  | String c _ => isDecimalDigit c = false
  | EmptyString => True
  end ->
  forall acc,
    fold_left (fun a d => a * 10 + d) (digitsPrefix 10 (s ++ rest)%string) acc =
    decimalValueFrom acc s.
Proof.
  intros Hs Hr. induction s as [|c s IH]; intros acc.
  - simpl. destruct rest as [|c r]; [reflexivity|].
    simpl. rewrite digitValue_decimal, Hr. reflexivity.
  - simpl in Hs. apply andb_prop in Hs as [Hc Hs].
    simpl. rewrite digitValue_decimal, Hc. simpl. apply IH. exact Hs.
Qed.

Lemma digitsPrefix_nonempty (c : ascii) (s : string) :
  isDecimalDigit c = true -> digitsPrefix 10 (String c s) <> [].
Proof.
  intros Hc. simpl. rewrite digitValue_decimal, Hc. discriminate.
Qed.

(** [parseInt] reads the decimal numeral a string starts with and ignores
    what follows it. *)
Lemma parseInt_numeral (s rest : string) :
  isNumeric s = true ->
  endsNumeral rest = true ->
  parseInt (s ++ rest)%string = Int (decimalValue s).
Proof.
  intros Hs Hr. destruct s as [|c s]; [discriminate Hs|].
  simpl in Hs. apply andb_prop in Hs as [Hc Hs].
  unfold parseInt. simpl append. simpl trimStart.
  rewrite (digit_not_space c Hc), (digit_not_sign c _ Hc).
  assert (Hx : match (s ++ rest)%string with
               | String c2 _ => negb (code c2 =? 120) && negb (code c2 =? 88)
               | EmptyString => true
               end = true).
  { destruct s as [|c2 s2]; simpl.
    - destruct rest as [|c2 r2]; [reflexivity|]. simpl in Hr.
      apply andb_prop in Hr as [Hr1 Hr3]. apply andb_prop in Hr1 as [Hr1 Hr2].
      rewrite Hr2, Hr3. reflexivity.
    - simpl in Hs. apply andb_prop in Hs as [Hc2 _]. apply digit_not_x, Hc2. }
  rewrite (no_hex_prefix c _ Hx).
  assert (Hd : match rest with
               | String c2 _ => isDecimalDigit c2 = false
               | EmptyString => True
               end).
  { destruct rest as [|c2 r2]; [exact I|]. simpl in Hr.
    apply andb_prop in Hr as [Hr1 _]. apply andb_prop in Hr1 as [Hr1 _].
    apply negb_true_iff in Hr1. exact Hr1. }
  pose proof (digitsPrefix_numeral (String c s) rest) as Hv.
  simpl allDecimalDigits in Hv. rewrite Hc, Hs in Hv.
  specialize (Hv eq_refl Hd 0).
  pose proof (digitsPrefix_nonempty c (s ++ rest)%string Hc) as Hne.
  change (String c s ++ rest)%string with (String c (s ++ rest)%string) in Hv.
  destruct (digitsPrefix 10 (String c (s ++ rest)%string)) as [|d ds] eqn:E;
    [congruence|].
  unfold digitsValue. rewrite Hv. unfold decimalValue.
  f_equal. lia.
Qed.

Lemma perform_extends (w : world) (conn : nat) (cmds : list (string * list arg)) :
  forall l, exists tl, snd (perform w l conn cmds) = l ++ tl.
Proof.
  induction cmds as [|cmd rest IH]; intros l; simpl.
  - exists []. symmetry. apply app_nil_r.
  - destruct (on_exchange w l conn (fst cmd) (snd cmd)).
    + destruct (IH (l ++ [handshake_sample conn cmd])) as [tl Htl].
      exists (handshake_sample conn cmd :: tl). rewrite Htl, <- app_assoc.
      reflexivity.
    + exists [handshake_sample conn cmd]. reflexivity.
Qed.

Lemma connect_dials (opts : RedisConnectOptions) (w : world) (z : Z) :
  parsePortLike (port_or_default (connect_port opts)) = Value (Int z) ->
  isSafeInteger (Int z) = true ->
  dials_first opts w z.
Proof.
  intros Hp Hs. unfold dials_first.
  pose proof (connect_run opts w z Hp Hs) as (_ & _ & H).
  destruct (on_dial w [] _ _ z).
  - rewrite H. exists []. reflexivity.
  - match type of H with
    | context [perform ?a ?b ?c ?d] =>
        destruct (perform_extends a c d b) as [tl Htl];
        destruct (perform a b c d) as [[e0|] l]
    end; simpl in Htl; subst l; rewrite H; simpl; eauto.
Qed.

Lemma connect_refuses (opts : RedisConnectOptions) (w : world) :
  (forall e, parsePortLike (port_or_default (connect_port opts)) = Throw e ->
     refuses opts w e) /\
  (forall n, parsePortLike (port_or_default (connect_port opts)) = Value n ->
     isSafeInteger n = false ->
     refuses opts w (Error "deno-redis: opts.port is invalid")).
Proof.
  unfold refuses, connect, RedisConnection_connect, bind, get. simpl. split.
  - intros e Hp.
    rewrite (proj1 (connectThunkified_refused _ _ _ w _) e Hp). reflexivity.
  - intros n Hp Hs.
    rewrite (proj2 (connectThunkified_refused _ _ _ w _) n Hp Hs). reflexivity.
Qed.

Lemma decimalValueFrom_nonneg (s : string) :
  allDecimalDigits s = true ->
  forall acc, 0 <= acc -> 0 <= decimalValueFrom acc s.
Proof.
  induction s as [|c s IH]; intros Hs acc Hacc; simpl.
  - exact Hacc.
  - simpl in Hs. apply andb_prop in Hs as [Hc Hs].
    apply IH; [exact Hs|].
    unfold isDecimalDigit in Hc. apply andb_prop in Hc as [Hc _].
    apply Z.leb_le in Hc. lia.
Qed.

Lemma numeric_safe (s : string) :
  isNumeric s = true ->
  decimalValue s <= MAX_SAFE_INTEGER ->
  isSafeInteger (Int (decimalValue s)) = true.
Proof.
  intros Hs Hv. simpl. apply Z.leb_le.
  assert (0 <= decimalValue s).
  { apply decimalValueFrom_nonneg; [|lia].
    destruct s; [discriminate Hs|exact Hs]. }
  lia.
Qed.

(** C5, as the code has it: a missing port is 6379; a numeric string whose
    value is a safe integer is parsed to that value; in general a string
    port is read by [parseInt], which takes the numeral the string starts
    with and ignores what follows it, and the string is refused exactly
    when [parseInt] finds no numeral or its value is not a safe integer; a
    number is taken as it is when it is a safe integer and refused
    otherwise; a value of any other type is refused.  A refusal is an
    error raised by [connect] before anything is dialled or sent. *)
Theorem port_parsing (opts : RedisConnectOptions) (w : world) :
  (connect_port opts = JUndefined -> dials_first opts w 6379) /\
  (forall s, connect_port opts = JString s ->
     isNumeric s = true -> decimalValue s <= MAX_SAFE_INTEGER ->
     dials_first opts w (decimalValue s)) /\
  (forall s rest, connect_port opts = JString (s ++ rest)%string ->
     isNumeric s = true -> endsNumeral rest = true ->
     decimalValue s <= MAX_SAFE_INTEGER ->
     dials_first opts w (decimalValue s)) /\
  (forall s, connect_port opts = JString s ->
     match parseInt s with
     | Int z =>
         if Z.abs z <=? MAX_SAFE_INTEGER then dials_first opts w z
         else refuses opts w (Error "deno-redis: opts.port is invalid")
     | NaN | NonInteger =>
         refuses opts w (Error "deno-redis: opts.port is invalid")
     end) /\
  (forall n, connect_port opts = JNumber n ->
     if isSafeInteger n then dials_first opts w (portValue n)
     else refuses opts w (Error "deno-redis: opts.port is invalid")) /\
  (forall v, connect_port opts = v ->
     match v with
     | JNull | JBoolean _ | JOther _ =>
         refuses opts w (Error ("port is invalid: typeof=" ++ typeof v)%string)
     | JUndefined | JNumber _ | JString _ => True
     end).
Proof.
  destruct (connect_refuses opts w) as [Hthrow Hunsafe].
  assert (Hstr : forall s rest, connect_port opts = JString (s ++ rest)%string ->
     isNumeric s = true -> endsNumeral rest = true ->
     decimalValue s <= MAX_SAFE_INTEGER ->
     dials_first opts w (decimalValue s)).
  { intros s rest Hp Hs Hr Hv. apply connect_dials.
    - rewrite Hp. simpl. rewrite (parseInt_numeral s rest Hs Hr). reflexivity.
    - apply numeric_safe; assumption. }
  split; [|split; [|split; [|split; [|split]]]].
  - intros Hp. apply connect_dials; [rewrite Hp; reflexivity|reflexivity].
  - intros s Hp Hs Hv. apply (Hstr s EmptyString); auto.
    rewrite Hp. f_equal. clear. induction s; simpl; congruence.
  - exact Hstr.
  - intros s Hp. destruct (parseInt s) as [z| |] eqn:Hz.
    + destruct (Z.abs z <=? MAX_SAFE_INTEGER) eqn:Hs.
      * apply connect_dials; [rewrite Hp; simpl; rewrite Hz; reflexivity|exact Hs].
      * apply (Hunsafe (Int z)); [rewrite Hp; simpl; rewrite Hz; reflexivity|exact Hs].
    + apply (Hunsafe NaN); [rewrite Hp; simpl; rewrite Hz; reflexivity|reflexivity].
    + apply (Hunsafe NonInteger);
        [rewrite Hp; simpl; rewrite Hz; reflexivity|reflexivity].
  - intros n Hp. destruct (isSafeInteger n) eqn:Hs.
    + destruct n as [z| |]; try discriminate Hs.
      apply connect_dials; [rewrite Hp; reflexivity|exact Hs].
    + apply (Hunsafe n); [rewrite Hp; reflexivity|exact Hs].
  - intros v Hp. destruct v; try exact I; apply Hthrow; rewrite Hp; reflexivity.
Qed.

(** C5, as stated, fails: a string that starts with a numeral and goes on
    with other characters is not numeric, and still [connect] takes the
    numeral as the port and dials it; and a numeric string whose value is
    beyond the safe integers is refused. *)
Lemma port_with_trailing_text_accepted :
  isNumeric "6379abc" = false /\
  connect (redis_at (JString "6379abc")) calm =
  (Value tt,
   {| self := after_dial 0 no_options
                (new_RedisConnection "127.0.0.1" (JString "6379abc") no_options);
      log := [ {| what := Dial false "127.0.0.1" 6379;
                  seenConnected := false; seenClosed := false |} ] |}) /\
  isNumeric "99999999999999999999" = true /\
  fst (connect (redis_at (JString "99999999999999999999")) calm) =
    Throw (Error "deno-redis: opts.port is invalid") /\
  ~ (forall opts w s,
       connect_port opts = JString s -> isNumeric s = false ->
       exists e, fst (connect opts w) = Throw e).
Proof.
  split; [reflexivity|]. split; [reflexivity|].
  split; [reflexivity|]. split; [reflexivity|].
  intros H.
  destruct (H (redis_at (JString "6379abc")) calm "6379abc" eq_refl eq_refl)
    as [e He].
  discriminate He.
Qed.

(** ** [reconnect] *)

Lemma sendCommand_self (wr rd : option nat) (command : string) (args : list arg)
  (w : world) (m : machine) :
  self (snd (sendCommand wr rd command args w m)) = self m.
Proof.
  unfold sendCommand. destruct wr, rd; reflexivity.
Qed.

Lemma retry_body_unfold (w : world) (m : machine) :
  retry_body w m =
  match close w m with
  | (Throw _, m1) => (Value false, bump m1)
  | (Value _, m1) =>
      match RedisConnection_connect w m1 with
      | (Throw _, m2) => (Value false, bump m2)
      | (Value _, m2) =>
          match sendCommand (writer (self m2)) (reader (self m2)) "PING" [] w m2 with
          | (Throw _, m3) => (Value false, bump m3)
          | (Value _, m3) =>
              (Value true,
               {| self := set_retryCount 1 (set_isConnected true (self m3));
                  log := log m3 |})
          end
      end
  end.
Proof.
  unfold retry_body, try_finally, try_catch, bind, get, modify, ret, bump.
  destruct (close w m) as [[u|e] m1]; [|reflexivity].
  destruct (RedisConnection_connect w m1) as [[u2|e2] m2]; [|reflexivity].
  simpl.
  destruct (sendCommand (writer (self m2)) (reader (self m2)) "PING" [] w m2)
    as [[v|e3] m3]; [|reflexivity].
  simpl. destruct (self m3); reflexivity.
Qed.

Lemma after_dial_frame (conn : nat) (o : Options.t) (c : RedisConnection) :
  options (after_dial conn o c) = options c /\
  retryCount (after_dial conn o c) = retryCount c /\
  (maxRetryCount (after_dial conn o c) = maxRetryCount c \/
   maxRetryCount (after_dial conn o c) = configured_maxRetryCount o).
Proof.
  unfold after_dial.
  destruct (truthyString (Options.name o)), (truthyNumber (Options.maxRetryCount o));
    destruct c; simpl; auto.
Qed.

Lemma connect_frame (w : world) (m : machine) :
  let c' := self (snd (RedisConnection_connect w m)) in
  options c' = options (self m) /\
  retryCount c' = retryCount (self m) /\
  (maxRetryCount c' = maxRetryCount (self m) \/
   maxRetryCount c' = configured_maxRetryCount (options (self m))).
Proof.
  unfold RedisConnection_connect, bind, get. simpl.
  destruct (port_cases (port (self m))) as [(z & Hp & Hs) | [(e & Hp) | (n & Hp & Hs)]].
  - rewrite (connectThunkified_run _ _ _ w m z Hp Hs). cbv zeta.
    destruct (on_dial w (log m) _ _ z); [simpl; auto|].
    pose proof (after_dial_frame (next_conn (log m)) (options (self m)) (self m))
      as (H1 & H2 & H3).
    remember (after_dial (next_conn (log m)) (options (self m)) (self m)) as c1
      eqn:Hc1.
    clear Hc1.
    destruct (perform w _ _ _) as [[e0|] l]; destruct c1; simpl in *; auto.
  - rewrite (proj1 (connectThunkified_refused _ _ _ w m) e Hp). simpl. auto.
  - rewrite (proj2 (connectThunkified_refused _ _ _ w m) n Hp Hs). simpl. auto.
Qed.

Lemma retry_body_frame (w : world) (m : machine) :
  exists ok m',
    retry_body w m = (Value ok, m') /\
    options (self m') = options (self m) /\
    maxRetryCount (self m') <= ceiling (self m) /\
    retryCount (self m') = (if ok : bool then 1 else retryCount (self m) + 1) /\
    (ok = true -> isConnected (self m') = true).
Proof.
  rewrite retry_body_unfold.
  pose proof (close_self w m) as Hc.
  destruct (close w m) as [r1 m1]. simpl in Hc.
  assert (H1 : options (self m1) = options (self m) /\
               retryCount (self m1) = retryCount (self m) /\
               maxRetryCount (self m1) = maxRetryCount (self m)).
  { rewrite Hc. destruct (self m); simpl; auto. }
  destruct H1 as (Ho1 & Hr1 & Hm1).
  assert (Hceil : forall x, x = maxRetryCount (self m) \/
                            x = configured_maxRetryCount (options (self m)) ->
                            x <= ceiling (self m)).
  { intros x [Hx|Hx]; unfold ceiling; lia. }
  destruct r1 as [u|e].
  2:{ exists false, (bump m1). unfold bump. simpl.
      repeat split; try discriminate.
      - destruct (self m1); simpl in *; assumption.
      - destruct (self m1); simpl in *. apply Hceil. auto.
      - destruct (self m1); simpl in *. lia. }
  pose proof (connect_frame w m1) as (Ho2 & Hr2 & Hm2).
  destruct (RedisConnection_connect w m1) as [r2 m2]. simpl in Ho2, Hr2, Hm2.
  assert (Hm2' : maxRetryCount (self m2) <= ceiling (self m)).
  { apply Hceil. rewrite Ho1, Hm1 in Hm2. exact Hm2. }
  destruct r2 as [u2|e2].
  2:{ exists false, (bump m2). unfold bump. simpl.
      repeat split; try discriminate.
      - destruct (self m2); simpl in *; congruence.
      - destruct (self m2); simpl in *. assumption.
      - destruct (self m2); simpl in *. lia. }
  pose proof (sendCommand_self (writer (self m2)) (reader (self m2)) "PING" [] w m2)
    as Hs3.
  destruct (sendCommand (writer (self m2)) (reader (self m2)) "PING" [] w m2)
    as [r3 m3]. simpl in Hs3.
  destruct r3 as [v|e3].
  - exists true. eexists. split; [reflexivity|]. simpl. rewrite Hs3.
    split; [|split; [|split]].
    + destruct (self m2); simpl in *; congruence.
    + destruct (self m2); simpl in *. assumption.
    + destruct (self m2); reflexivity.
    + intros _. destruct (self m2); reflexivity.
  - exists false, (bump m3). unfold bump. simpl. rewrite Hs3.
    repeat split; try discriminate.
    + destruct (self m2); simpl in *; congruence.
    + destruct (self m2); simpl in *. assumption.
    + destruct (self m2); simpl in *. lia.
Qed.

Lemma retry_tick_unfold (k : Z) (w : world) (m : machine) :
  retry_tick k w m =
  if retryCount (self m) >? maxRetryCount (self m) then
    match close w (at_tick k m) with
    | (Throw e, m1) => (Value (Some (Uncaught e)), m1)
    | (Value _, m1) =>
        (Value (Some (Rejected (Error "Could not reconnect"))),
         snd (retry_body w m1))
    end
  else
    match retry_body w (at_tick k m) with
    | (Value true, m') => (Value (Some Resolved), m')
    | (Value false, m') => (Value None, m')
    | (Throw e, m') => (Throw e, m')
    end.
Proof.
  unfold retry_tick, bind, observe, get, attempt, ret, at_tick, record_event.
  cbn [self log].
  destruct (retryCount (self m) >? maxRetryCount (self m)).
  - match goal with
    | |- context [close w ?x] => destruct (close w x) as [[u|e] m1]
    end; [|reflexivity].
    destruct (retry_body_frame w m1) as (ok & m' & H & _). rewrite H. reflexivity.
  - match goal with
    | |- context [retry_body w ?x] => destruct (retry_body w x) as [[[|]|e] m']
    end; reflexivity.
Qed.


Lemma gtb_true (a b : Z) : a > b -> (a >? b) = true.
Proof. intros H. rewrite Z.gtb_ltb. apply Z.ltb_lt. lia. Qed.



Lemma reconnect_probe (fuel : nat) (w : world) (m : machine) (conn : nat) :
  reader (self m) = Some conn ->
  writer (self m) = Some conn ->
  reconnect fuel w m =
  match on_exchange w (log m) conn "PING" [] with
  | Value _ => (Value (Some Resolved), probed m conn (set_isConnected true (self m)))
  | Throw _ => retry_loop fuel 1 w (probed m conn (set_isConnected false (self m)))
  end.
Proof.
  intros Hr Hw.
  unfold reconnect, bind, get, attempt, modify, ret, sendCommand. simpl.
  rewrite Hr, Hw. simpl.
  destruct (on_exchange w (log m) conn "PING" []); reflexivity.
Qed.









Lemma retries_outcome (w : world) (k : Z) (m : machine) (n : nat) (s : settled)
  (m' : machine) :
  retries w k m n s m' ->
  match s with
  | Resolved => isConnected (self m') = true /\ retryCount (self m') = 1
  | Rejected e => e = Error "Could not reconnect"
  | Uncaught e => isBadResource e = false
  end.
Proof.
  induction 1 as [k m m' Hle Hb | k m m1 m' n s Hle Hb Hr IH
                  | k m m1 Hgt Hc | k m m' e Hgt Hc].
  - destruct (retry_body_frame w (at_tick k m)) as (ok & m2 & H & _ & _ & Hr & Hi).
    rewrite Hb in H. inversion H; subst. auto.
  - exact IH.
  - reflexivity.
  - pose proof (close_outcome w (at_tick k m)) as Ho. rewrite Hc in Ho.
    cbn [fst] in Ho.
    destruct (closer (self (at_tick k m))) as [c|].
    + destruct (on_close w (log (at_tick k m)) c) as [[|cn msg]|];
        inversion Ho; reflexivity.
    + inversion Ho. reflexivity.
Qed.



(** C3, as the code has it: the probe is sent whatever [retryCount] is, and
    a probe that succeeds resolves [reconnect()] and leaves [retryCount]
    as it was, so that the first [PING] is outside the ceiling; a callback
    that finds [retryCount > maxRetryCount] rejects, and its body runs all
    the same; a body that fails adds one to [retryCount], and a body that
    succeeds sets [retryCount] to 0, to which the [finally] clause adds
    one: after a reconnect that the loop resolves, [retryCount] is 1. *)
Theorem reconnect_ceiling_and_count (w : world) (m : machine) (conn : nat) (k : Z) :
  (reader (self m) = Some conn -> writer (self m) = Some conn ->
   forall v fuel,
     on_exchange w (log m) conn "PING" [] = Value v ->
     reconnect fuel w m =
       (Value (Some Resolved), probed m conn (set_isConnected true (self m))) /\
     retryCount (self (snd (reconnect fuel w m))) = retryCount (self m)) /\
  (forall m1,
     retryCount (self m) > maxRetryCount (self m) ->
     close w (at_tick k m) = (Value tt, m1) ->
     retry_tick k w m =
       (Value (Some (Rejected (Error "Could not reconnect"))),
        snd (retry_body w m1))) /\
  (exists ok m',
     retry_body w m = (Value ok, m') /\
     retryCount (self m') = if ok : bool then 1 else retryCount (self m) + 1) /\
  (forall n m', retries w k m n Resolved m' -> retryCount (self m') = 1).
Proof.
  split; [|split; [|split]].
  - intros Hr Hw v fuel Hv.
    rewrite (reconnect_probe fuel w m conn Hr Hw), Hv. split; [reflexivity|].
    simpl. destruct (self m); reflexivity.
  - intros m1 Hgt Hc. rewrite retry_tick_unfold, (gtb_true _ _ Hgt), Hc.
    reflexivity.
  - destruct (retry_body_frame w m) as (ok & m' & Hb & _ & _ & Hr & _).
    exists ok, m'. auto.
  - intros n m' Hn. exact (proj2 (retries_outcome _ _ _ _ _ _ Hn)).
Qed.

(** A connection whose count is above the ceiling: the probe is sent and
    resolves the reconnect, and the count stays. *)
Lemma reconnect_ceiling_and_count_witness :
  retryCount (self worn_out) > maxRetryCount (self worn_out) /\
  reconnect 0 calm worn_out =
    (Value (Some Resolved), probed worn_out 0 (set_isConnected true (self worn_out))) /\
  retryCount (self (snd (reconnect 0 calm worn_out))) = 5.
Proof.
  split; [reflexivity|].
  exact (proj1 (reconnect_ceiling_and_count calm worn_out 0 1)
           eq_refl eq_refl OK 0%nat eq_refl).
Defined.

(** C3, as stated, fails.  On a successful reconnect the code does assign 0
    to [retryCount]: when the probe fails, two callbacks fail and the third
    succeeds, the count would be 3 at the end were it never reset, and it
    is 1.  And the ceiling is tested before the body of a callback, not
    after it: on a connection whose count is above the ceiling, with a
    server that can be reached, the first callback rejects before its
    body runs, and the body then reconnects all the same. *)
Lemma retryCount_is_reset :
  retryCount (self broken) = 0 /\
  fst (reconnect 10 refused_twice broken) = Value (Some Resolved) /\
  ticks (log (snd (reconnect 10 refused_twice broken))) = 3%nat /\
  retryCount (self (snd (reconnect 10 refused_twice broken))) = 1 /\
  fst (reconnect 10 broken_once worn_out) =
    Value (Some (Rejected (Error "Could not reconnect"))) /\
  ticks (log (snd (reconnect 10 broken_once worn_out))) = 1%nat /\
  isConnected (self (snd (reconnect 10 broken_once worn_out))) = true /\
  ~ (forall w m fuel,
       fst (reconnect fuel w m) = Value (Some Resolved) ->
       retryCount (self (snd (reconnect fuel w m))) =
       retryCount (self m) +
       Z.of_nat (ticks (log (snd (reconnect fuel w m))) - ticks (log m))).
Proof.
  split; [reflexivity|]. split; [vm_compute; reflexivity|].
  split; [vm_compute; reflexivity|]. split; [vm_compute; reflexivity|].
  split; [vm_compute; reflexivity|]. split; [vm_compute; reflexivity|].
  split; [vm_compute; reflexivity|].
  intros H. specialize (H refused_twice broken 10%nat).
  vm_compute in H. specialize (H eq_refl). discriminate H.
Qed.

(** ** [pubsub_numsubs] *)

Lemma numsubs_loop_paired (fuel : nat) :
  forall (pre rest : list raw) (ret : list (option raw * option raw)),
    (List.length rest <= fuel)%nat ->
    Nat.Even (List.length rest) ->
    numsubs_loop fuel (pre ++ rest) (List.length pre) ret =
    ret ++ map both (paired rest).
Proof.
  induction fuel as [|fuel IH]; intros pre rest ret Hf He.
  - destruct rest; [|simpl in Hf; lia]. simpl. symmetry. apply app_nil_r.
  - destruct rest as [|chan [|num rest]].
    + simpl. rewrite app_nil_r, Nat.ltb_irrefl, app_nil_r. reflexivity.
    + destruct He as [j Hj]. simpl in Hj. lia.
    + cbn [numsubs_loop].
      assert (Hlt : (List.length pre <? List.length (pre ++ chan :: num :: rest))%nat = true).
      { apply Nat.ltb_lt. rewrite length_app. simpl. lia. }
      rewrite Hlt.
      assert (H0 : nth_error (pre ++ chan :: num :: rest) (List.length pre) = Some chan).
      { rewrite nth_error_app2 by lia. rewrite Nat.sub_diag. reflexivity. }
      assert (H1 : nth_error (pre ++ chan :: num :: rest) (List.length pre + 1) = Some num).
      { rewrite nth_error_app2 by lia.
        replace (List.length pre + 1 - List.length pre)%nat with 1%nat by lia.
        reflexivity. }
      rewrite H0, H1.
      replace (pre ++ chan :: num :: rest) with ((pre ++ [chan; num]) ++ rest)
        by (rewrite <- app_assoc; reflexivity).
      replace (List.length pre + 2)%nat with (List.length (pre ++ [chan; num]))
        by (rewrite length_app; reflexivity).
      rewrite IH.
      * rewrite <- app_assoc. reflexivity.
      * simpl in Hf. lia.
      * destruct He as [j Hj]. simpl in Hj. exists (j - 1)%nat. lia.
Qed.

Lemma numsubs_pairs_paired (arr : list raw) :
  Nat.Even (List.length arr) ->
  numsubs_pairs arr = map both (paired arr).
Proof.
  intros He. unfold numsubs_pairs.
  apply (numsubs_loop_paired (List.length arr) [] arr []); [lia|exact He].
Qed.

Lemma paired_nth (i : nat) :
  forall (arr : list raw) (k : nat),
    List.length arr = (2 * k)%nat ->
    (i < k)%nat ->
    exists chan num,
      nth_error arr (2 * i) = Some chan /\
      nth_error arr (2 * i + 1) = Some num /\
      nth_error (paired arr) i = Some (chan, num).
Proof.
  induction i as [|i IH]; intros arr k Hl Hi.
  - destruct arr as [|chan [|num rest]]; simpl in Hl; try lia.
    exists chan, num. auto.
  - destruct arr as [|chan [|num rest]]; simpl in Hl; try lia.
    destruct (IH rest (k - 1)%nat) as (c & n & H0 & H1 & H2); [lia|lia|].
    exists c, n.
    replace (2 * S i)%nat with (S (S (2 * i))) by lia.
    replace (S (S (2 * i)) + 1)%nat with (S (S (2 * i + 1))) by lia.
    simpl nth_error. simpl paired. auto.
Qed.

Lemma paired_length (k : nat) :
  forall arr : list raw,
    List.length arr = (2 * k)%nat -> List.length (paired arr) = k.
Proof.
  induction k as [|k IH]; intros arr Hl.
  - destruct arr; [reflexivity|simpl in Hl; lia].
  - destruct arr as [|chan [|num rest]]; simpl in Hl; try lia.
    simpl. f_equal. apply IH. lia.
Qed.

(** C8: from a flat array reply of even length [2k], [pubsub_numsubs]
    returns [k] pairs, in order, the [i]-th made of the item at index [2i]
    as the channel and the item at index [2i+1] as the count: the items
    taken two at a time, none lost and none moved. *)
Theorem numsubs_pairs_even (arr : list raw) (k : nat) :
  List.length arr = (2 * k)%nat ->
  List.length (numsubs_pairs arr) = k /\
  (forall i, (i < k)%nat ->
     exists chan num,
       nth_error arr (2 * i) = Some chan /\
       nth_error arr (2 * i + 1) = Some num /\
       nth_error (numsubs_pairs arr) i = Some (Some chan, Some num)) /\
  numsubs_pairs arr = map both (paired arr) /\
  (forall conn channels w m tag,
     fst (exec conn "PUBSUB" (AString "NUMSUBS" :: map AString channels) w m) =
       Value (tag, RArray arr) ->
     fst (pubsub_numsubs conn channels w m) = Value (numsubs_pairs arr)).
Proof.
  intros Hl.
  assert (He : Nat.Even (List.length arr)) by (exists k; exact Hl).
  rewrite (numsubs_pairs_paired arr He).
  split; [|split; [|split]].
  - rewrite length_map. apply paired_length. exact Hl.
  - intros i Hi. destruct (paired_nth i arr k Hl Hi) as (chan & num & H0 & H1 & H2).
    exists chan, num. split; [exact H0|]. split; [exact H1|].
    rewrite nth_error_map, H2. reflexivity.
  - reflexivity.
  - intros conn channels w m tag Hx.
    unfold pubsub_numsubs, execArrayReply, bind, ret in *.
    destruct (exec conn "PUBSUB" (AString "NUMSUBS" :: map AString channels) w m)
      as [[v|e] m1]; simpl in Hx; [|discriminate Hx].
    inversion Hx; subst v. simpl.
    rewrite (numsubs_pairs_paired arr He). reflexivity.
Qed.

(** Two channels and their counts. *)
Lemma numsubs_pairs_even_witness :
  fst (pubsub_numsubs
         (RedisConnection_as_Connection
            (answering (RArray [RString "news"; RInteger 3; RString "chat"; RInteger 0])))
         ["news"; "chat"] calm (connected no_options)) =
  Value [ (Some (RString "news"), Some (RInteger 3));
          (Some (RString "chat"), Some (RInteger 0)) ].
Proof.
  exact (proj2 (proj2 (proj2
    (numsubs_pairs_even
       [RString "news"; RInteger 3; RString "chat"; RInteger 0] 2 eq_refl)))
    (RedisConnection_as_Connection
       (answering (RArray [RString "news"; RInteger 3; RString "chat"; RInteger 0])))
    ["news"; "chat"] calm (connected no_options) "array" eq_refl).
Defined.

(** ** The executor's queue: first in, first out *)

Lemma firstn_snoc {A : Type} (d : A) (l : list A) :
  forall n, (n < List.length l)%nat ->
    firstn (S n) l = firstn n l ++ [nth n l d].
Proof.
  induction l as [|x l IH]; intros n Hn.
  - simpl in Hn. lia.
  - destruct n as [|n]; [reflexivity|].
    simpl in Hn. change (firstn (S (S n)) (x :: l)) with (x :: firstn (S n) l).
    rewrite (IH n) by lia. reflexivity.
Qed.

Lemma mux_submit_invariant (srv : Mux.server) (s : Mux.state) (c : Mux.command) :
  Mux.invariant srv s -> Mux.invariant srv (Mux.step srv s (Mux.Submit c)).
Proof.
  destruct s as [sub q o wr cp]. unfold Mux.invariant. simpl.
  intros (Ho & Hlen & Hw & Hout & Hq & Hc).
  rewrite length_app. simpl.
  split; [exact Ho|]. split; [lia|]. split; [|split; [|split]].
  - rewrite firstn_app.
    replace (List.length cp + List.length o - List.length sub)%nat with 0%nat by lia.
    simpl. rewrite app_nil_r. exact Hw.
  - etransitivity; [exact Hout|]. apply map_ext_in. intros t Ht.
    apply in_seq in Ht. unfold Mux.request. simpl.
    rewrite app_nth1 by lia. reflexivity.
  - replace (List.length sub + 1 - (List.length cp + List.length o))%nat
      with (S (List.length sub - (List.length cp + List.length o))) by lia.
    rewrite seq_S, map_app. f_equal.
    + etransitivity; [exact Hq|]. apply map_ext_in. intros t Ht.
      apply in_seq in Ht. unfold Mux.request. simpl.
      rewrite app_nth1 by lia. reflexivity.
    + simpl. unfold Mux.request. simpl.
      replace (List.length cp + List.length o +
               (List.length sub - (List.length cp + List.length o)))%nat
        with (List.length sub) by lia.
      rewrite app_nth2 by lia. rewrite Nat.sub_diag. reflexivity.
  - etransitivity; [exact Hc|]. apply map_ext_in. intros t Ht.
    apply in_seq in Ht. unfold Mux.own_reply. simpl.
    rewrite firstn_app, app_nth1 by lia.
    replace (t - List.length sub)%nat with 0%nat by lia.
    simpl. rewrite app_nil_r. reflexivity.
Qed.

Lemma mux_dispatch_invariant (srv : Mux.server) (s : Mux.state) :
  Mux.invariant srv s -> Mux.invariant srv (Mux.step srv s Mux.Dispatch).
Proof.
  intros Hinv. unfold Mux.step.
  destruct (Mux.outstanding s) as [|r0 o'] eqn:Eo; [|exact Hinv].
  destruct (Mux.queue s) as [|r q'] eqn:Eq; [exact Hinv|].
  destruct s as [sub q o wr cp]. unfold Mux.invariant in *. simpl in *. subst o q.
  destruct Hinv as (Ho & Hlen & Hw & Hout & Hq & Hc). simpl in *.
  rewrite Nat.add_0_r in *.
  destruct (List.length sub - List.length cp)%nat as [|n] eqn:En;
    [discriminate Hq|].
  simpl in Hq. inversion Hq as [[Hr Hq']]. clear Hq.
  split; [lia|]. split; [lia|]. split; [|split; [|split]].
  - assert (Hlt : (List.length cp < List.length sub)%nat) by lia.
    rewrite Nat.add_1_r, (@firstn_snoc Mux.command [] sub _ Hlt), <- Hw.
    reflexivity.
  - reflexivity.
  - replace (List.length sub - (List.length cp + 1))%nat with n by lia.
    rewrite Nat.add_1_r. reflexivity.
  - exact Hc.
Qed.

Lemma mux_complete_invariant (srv : Mux.server) (s : Mux.state) :
  Mux.invariant srv s -> Mux.invariant srv (Mux.step srv s Mux.Complete).
Proof.
  intros Hinv. unfold Mux.step.
  destruct (Mux.outstanding s) as [|r rest] eqn:Eo; [exact Hinv|].
  destruct s as [sub q o wr cp]. unfold Mux.invariant in *. simpl in *. subst o.
  destruct Hinv as (Ho & Hlen & Hw & Hout & Hq & Hc). simpl in *.
  destruct rest as [|r1 rest]; [|simpl in Ho; lia]. simpl in *.
  inversion Hout as [Hr]. clear Hout.
  rewrite length_app. simpl. rewrite Nat.add_0_r.
  split; [lia|]. split; [lia|]. split; [exact Hw|]. split; [reflexivity|].
  split; [exact Hq|].
  rewrite Nat.add_1_r, seq_S, map_app. f_equal; [exact Hc|].
  simpl. unfold Mux.reply_stream, Mux.own_reply, Mux.request. simpl.
  rewrite Hw, firstn_firstn, nth_firstn.
  replace (Init.Nat.min (List.length cp) (List.length cp + 1)) with (List.length cp)
    by lia.
  replace (List.length cp <? List.length cp + 1)%nat with true
    by (symmetry; apply Nat.ltb_lt; lia).
  reflexivity.
Qed.

Lemma mux_run_invariant (srv : Mux.server) (acts : list Mux.action) :
  Mux.invariant srv (Mux.run srv acts).
Proof.
  unfold Mux.run.
  assert (H0 : Mux.invariant srv Mux.init).
  { unfold Mux.invariant. simpl. repeat split; auto. }
  revert H0. generalize Mux.init.
  induction acts as [|a acts IH]; intros s Hs; simpl.
  - exact Hs.
  - apply IH. destruct a.
    + apply mux_submit_invariant, Hs.
    + apply mux_dispatch_invariant, Hs.
    + apply mux_complete_invariant, Hs.
Qed.

Lemma seq_split3 (a b n : nat) :
  (a < b)%nat -> (b < n)%nat ->
  seq 0 n = seq 0 a ++ a :: seq (S a) (b - S a) ++ b :: seq (S b) (n - S b).
Proof.
  intros Hab Hbn.
  replace n with (a + S ((b - S a) + S (n - S b)))%nat at 1 by lia.
  rewrite seq_app. simpl. f_equal. f_equal.
  rewrite seq_app. f_equal.
  replace (S a + (b - S a))%nat with b by lia. reflexivity.
Qed.

(** C7, on the scheduling algorithm of the specification: whatever the
    order in which callers submit and the dispatch loop writes and reads,
    at most one request is outstanding on the transport; the commands go
    on the wire in the order of submission; the [k]-th reply decoded is
    given to the [k]-th submission and is the server's answer to that
    submission's command; so for two submissions, A before B, once B has
    its reply A has been given its own, and earlier. *)
Theorem mux_fifo_pairing (srv : Mux.server) (acts : list Mux.action) :
  let s := Mux.run srv acts in
  (List.length (Mux.outstanding s) <= 1)%nat /\
  Mux.wire s = firstn (List.length (Mux.wire s)) (Mux.submitted s) /\
  Mux.completed s =
    map (fun t => (t, Mux.own_reply srv (Mux.submitted s) t))
      (seq 0 (List.length (Mux.completed s))) /\
  (forall a b rb,
     (a < b)%nat ->
     In (b, rb) (Mux.completed s) ->
     rb = Mux.own_reply srv (Mux.submitted s) b /\
     exists l1 l2 l3,
       Mux.completed s =
       l1 ++ (a, Mux.own_reply srv (Mux.submitted s) a) :: l2 ++ (b, rb) :: l3).
Proof.
  intros s.
  destruct (mux_run_invariant srv acts) as (Ho & Hlen & Hw & Hout & Hq & Hc).
  fold s in Ho, Hlen, Hw, Hout, Hq, Hc.
  split; [exact Ho|]. split; [|split; [exact Hc|]].
  - rewrite Hw at 1. f_equal. rewrite Hw, length_firstn. lia.
  - intros a b rb Hab Hin.
    remember (List.length (Mux.completed s)) as nc eqn:Hnc. clear Hnc.
    rewrite Hc in Hin. apply in_map_iff in Hin as (t & Ht & Hin).
    inversion Ht; subst t rb. apply in_seq in Hin.
    split; [reflexivity|].
    rewrite Hc, (seq_split3 a b nc) by lia.
    rewrite map_app. simpl. rewrite map_app. simpl.
    eauto.
Qed.

(** Three submissions, two of them completed. *)
Lemma mux_fifo_pairing_witness :
  Mux.completed
    (Mux.run echo
       [Mux.Submit ["GET"; "a"]; Mux.Submit ["GET"; "b"]; Mux.Dispatch;
        Mux.Submit ["GET"; "c"]; Mux.Complete; Mux.Dispatch; Mux.Complete]) =
  [ (0%nat, RArray [RInteger 0; RArray [RString "GET"; RString "a"]]);
    (1%nat, RArray [RInteger 1; RArray [RString "GET"; RString "b"]]) ].
Proof.
  exact (proj1 (proj2 (proj2
    (mux_fifo_pairing echo
       [Mux.Submit ["GET"; "a"]; Mux.Submit ["GET"; "b"]; Mux.Dispatch;
        Mux.Submit ["GET"; "c"]; Mux.Complete; Mux.Dispatch; Mux.Complete])))).
Defined.

(** * Further properties of the code *)

(** ** [pubsub_numsubs] on any array *)

Lemma numsubs_loop_pairs_opt (fuel : nat) :
  forall (pre rest : list raw) (ret : list (option raw * option raw)),
    (List.length rest <= fuel)%nat ->
    numsubs_loop fuel (pre ++ rest) (List.length pre) ret = ret ++ pairs_opt rest.
Proof.
  induction fuel as [|fuel IH]; intros pre rest ret Hf.
  - destruct rest; [|simpl in Hf; lia]. simpl. symmetry. apply app_nil_r.
  - destruct rest as [|chan [|num rest]].
    + simpl. rewrite app_nil_r, Nat.ltb_irrefl, app_nil_r. reflexivity.
    + cbn [numsubs_loop pairs_opt].
      assert (Hlt : (List.length pre <? List.length (pre ++ [chan]))%nat = true).
      { apply Nat.ltb_lt. rewrite length_app. simpl. lia. }
      rewrite Hlt.
      assert (H0 : nth_error (pre ++ [chan]) (List.length pre) = Some chan).
      { rewrite nth_error_app2 by lia. rewrite Nat.sub_diag. reflexivity. }
      assert (H1 : nth_error (pre ++ [chan]) (List.length pre + 1) = None).
      { apply nth_error_None. rewrite length_app. simpl. lia. }
      rewrite H0, H1.
      destruct fuel as [|fuel']; [reflexivity|].
      cbn [numsubs_loop].
      replace (List.length pre + 2 <? List.length (pre ++ [chan]))%nat with false;
        [reflexivity|].
      symmetry. apply Nat.ltb_ge. rewrite length_app. simpl. lia.
    + cbn [numsubs_loop pairs_opt].
      assert (Hlt : (List.length pre <? List.length (pre ++ chan :: num :: rest))%nat = true).
      { apply Nat.ltb_lt. rewrite length_app. simpl. lia. }
      rewrite Hlt.
      assert (H0 : nth_error (pre ++ chan :: num :: rest) (List.length pre) = Some chan).
      { rewrite nth_error_app2 by lia. rewrite Nat.sub_diag. reflexivity. }
      assert (H1 : nth_error (pre ++ chan :: num :: rest) (List.length pre + 1) = Some num).
      { rewrite nth_error_app2 by lia.
        replace (List.length pre + 1 - List.length pre)%nat with 1%nat by lia.
        reflexivity. }
      rewrite H0, H1.
      replace (pre ++ chan :: num :: rest) with ((pre ++ [chan; num]) ++ rest)
        by (rewrite <- app_assoc; reflexivity).
      replace (List.length pre + 2)%nat with (List.length (pre ++ [chan; num]))
        by (rewrite length_app; reflexivity).
      rewrite IH by (simpl in Hf; lia).
      rewrite <- app_assoc. reflexivity.
Qed.

Lemma pairs_opt_length (n : nat) :
  forall arr : list raw,
    (List.length arr <= n)%nat ->
    List.length (pairs_opt arr) = Nat.div2 (S (List.length arr)).
Proof.
  induction n as [|n IH]; intros arr Hn.
  - destruct arr; [reflexivity|simpl in Hn; lia].
  - destruct arr as [|chan [|num rest]]; try reflexivity.
    cbn [pairs_opt List.length]. rewrite IH by (simpl in Hn; lia). reflexivity.
Qed.

Lemma pairs_opt_odd (last : raw) (n : nat) :
  forall rest : list raw,
    (List.length rest <= n)%nat -> Nat.Even (List.length rest) ->
    pairs_opt (rest ++ [last]) = map both (paired rest) ++ [(Some last, None)].
Proof.
  induction n as [|n IH]; intros rest Hn He.
  - destruct rest; [reflexivity|simpl in Hn; lia].
  - destruct rest as [|c [|c' rest]].
    + reflexivity.
    + destruct He as [j Hj]. simpl in Hj. lia.
    + cbn [app pairs_opt paired map]. f_equal.
      apply IH; [simpl in Hn; lia|].
      destruct He as [j Hj]. simpl in Hj. exists (j - 1)%nat. lia.
Qed.

(** X1: for a reply array of any length [n], [pubsub_numsubs] returns
    [(n+1)/2] pairs: the items two at a time and in order, and, when [n] is
    odd, a last pair made of the last item and [undefined]. *)
Theorem numsubs_pairs_any (arr : list raw) :
  numsubs_pairs arr = pairs_opt arr /\
  List.length (numsubs_pairs arr) = Nat.div2 (S (List.length arr)) /\
  (forall body last,
     arr = body ++ [last] -> Nat.Even (List.length body) ->
     numsubs_pairs arr = map both (paired body) ++ [(Some last, None)]).
Proof.
  assert (H : numsubs_pairs arr = pairs_opt arr).
  { unfold numsubs_pairs.
    apply (numsubs_loop_pairs_opt (List.length arr) [] arr []). lia. }
  split; [exact H|]. split.
  - rewrite H. apply (pairs_opt_length (List.length arr)). lia.
  - intros body last Harr Hev. rewrite H, Harr.
    apply (pairs_opt_odd last (List.length body)); [lia|exact Hev].
Qed.

(** ** What [connect] sends *)

Lemma perform_entries (w : world) (conn : nat) (cmds : list (string * list arg)) :
  forall l, exists k,
    snd (perform w l conn cmds) = l ++ map (handshake_sample conn) (firstn k cmds).
Proof.
  induction cmds as [|cmd rest IH]; intros l; simpl.
  - exists 0%nat. simpl. symmetry. apply app_nil_r.
  - destruct (on_exchange w l conn (fst cmd) (snd cmd)).
    + destruct (IH (l ++ [handshake_sample conn cmd])) as [k Hk].
      exists (S k). rewrite Hk, <- app_assoc. reflexivity.
    + exists 1%nat. reflexivity.
Qed.

Lemma In_firstn {A : Type} (x : A) (k : nat) :
  forall l : list A, In x (firstn k l) -> In x l.
Proof.
  induction k as [|k IH]; intros l Hin; [contradiction|].
  destruct l as [|y l]; [contradiction|].
  destruct Hin as [Hin|Hin]; [left; exact Hin|right; apply IH, Hin].
Qed.

Lemma firstn_length_bound {A : Type} (k : nat) (l : list A) :
  (List.length (firstn k l) <= List.length l)%nat.
Proof. rewrite length_firstn. lia. Qed.

Lemma handshake_commands (o : Options.t) (cmd : string * list arg) :
  In cmd (handshake o) ->
  (fst cmd = "AUTH" /\
   exists pw, Options.password o = Some pw /\ snd cmd = [AString pw]) \/
  (fst cmd = "SELECT" /\
   exists i, Options.db o = Some i /\ i <> 0 /\ snd cmd = [ANumber i]).
Proof.
  unfold handshake. intros Hin. apply in_app_or in Hin as [Hin|Hin].
  - destruct (Options.password o) as [pw|]; [|contradiction].
    destruct Hin as [Hin|[]]. subst cmd. left. simpl. eauto.
  - destruct (Options.db o) as [i|]; [|contradiction].
    destruct (i =? 0) eqn:Hi; [contradiction|].
    destruct Hin as [Hin|[]]. subst cmd. right. simpl.
    apply Z.eqb_neq in Hi. eauto.
Qed.

(** X2: whatever the options and the world, the only exchanges that
    [connect] makes are [AUTH] with the password of the options and
    [SELECT] with their non-zero database, on the connection it has just
    dialled, and there are at most two of them; the [name] option is kept
    in the field [name] and never sent. *)
Theorem connect_sends_handshake_only (opts : RedisConnectOptions) (w : world) :
  (forall s, In s (log (snd (connect opts w))) ->
             handshake_only (connect_options opts) s) /\
  (List.length (filter (fun s => isExchange (what s)) (log (snd (connect opts w))))
   <= 2)%nat /\
  (executor (self (snd (connect opts w))) <> None ->
   name (self (snd (connect opts w))) =
   if truthyString (Options.name (connect_options opts))
   then Options.name (connect_options opts) else None).
Proof.
  set (o := connect_options opts).
  destruct (port_cases (port_or_default (connect_port opts)))
    as [(z & Hp & Hs) | [(e & Hp) | (n & Hp & Hs)]].
  - pose proof (connect_run opts w z Hp Hs) as (_ & _ & H). fold o in H.
    destruct (on_dial w [] _ _ z).
    + rewrite H. simpl. split; [|split].
      * intros s [Hs'|[]]. subst s. exact I.
      * lia.
      * intros Hx. contradiction.
    + match type of H with
      | context [perform ?a ?b ?c ?d] =>
          destruct (perform_entries a c d b) as [k Hk];
          destruct (perform a b c d) as [[e0|] l]
      end; simpl in Hk; subst l; rewrite H; simpl.
      * split; [|split].
        -- intros s [Hs'|Hin]; [subst s; exact I|].
           apply in_app_or in Hin as [Hin|[Hin|[]]]; [|subst s; exact I].
           apply in_map_iff in Hin as (cmd & Hc & Hin). subst s.
           apply In_firstn, handshake_commands in Hin.
           unfold handshake_only. simpl. split; [reflexivity|exact Hin].
        -- rewrite filter_app, length_app. simpl.
           rewrite Nat.add_0_r.
           etransitivity; [apply filter_length_le|].
           rewrite length_map.
           etransitivity; [apply firstn_length_bound|].
           unfold handshake. rewrite length_app.
           destruct (Options.password o); destruct (Options.db o) as [i|];
             try destruct (i =? 0); simpl; lia.
        -- intros _. unfold after_dial.
           destruct (truthyString (Options.name o)),
                    (truthyNumber (Options.maxRetryCount o)); reflexivity.
      * split; [|split].
        -- intros s [Hs'|Hin]; [subst s; exact I|].
           apply in_map_iff in Hin as (cmd & Hc & Hin). subst s.
           apply In_firstn, handshake_commands in Hin.
           unfold handshake_only. simpl. split; [reflexivity|exact Hin].
        -- etransitivity; [apply filter_length_le|].
           rewrite length_map.
           etransitivity; [apply firstn_length_bound|].
           unfold handshake. rewrite length_app.
           destruct (Options.password o); destruct (Options.db o) as [i|];
             try destruct (i =? 0); simpl; lia.
        -- intros _. unfold after_dial.
           destruct (truthyString (Options.name o)),
                    (truthyNumber (Options.maxRetryCount o)); reflexivity.
  - pose proof (proj1 (connect_refuses opts w) e Hp) as H. unfold refuses in H.
    rewrite H. simpl. split; [intros s []|]. split; [lia|]. intros Hx. contradiction.
  - pose proof (proj2 (connect_refuses opts w) n Hp Hs) as H. unfold refuses in H.
    rewrite H. simpl. split; [intros s []|]. split; [lia|]. intros Hx. contradiction.
Qed.

(** ** [reconnect] when no server answers *)








(** ** [reconnect] when it resolves *)












(** ** [close] once more, and the client of [create] *)

Lemma close_keeps_closer (w : world) (m : machine) :
  closer (self (snd (close w m))) = closer (self m).
Proof. rewrite close_self. destruct (self m); reflexivity. Qed.

(** X5: [close()] has no guard against a second call: each of [n] calls
    in a row calls the transport's close again, [n] times in all, each
    time with the client already flagged closed and not connected,
    whatever the transport answers. *)
Theorem close_calls_transport_each_time (n : nat) (w : world) (m : machine)
  (conn : nat) :
  closer (self m) = Some conn ->
  log (snd (close_times n w m)) = log m ++ repeat (close_sample conn) n.
Proof.
  revert m. induction n as [|n IH]; intros m Hc.
  - simpl. symmetry. apply app_nil_r.
  - rewrite close_times_step.
    assert (Hc' : closer (self (snd (close w m))) = Some conn)
      by (rewrite close_keeps_closer; exact Hc).
    specialize (IH _ Hc').
    destruct (close_times n w (snd (close w m))) as [[l|e] m2]; simpl in *;
      rewrite IH, close_log, Hc, <- app_assoc; reflexivity.
Qed.

(** Three calls where the transport's close fails each time. *)
Lemma close_calls_transport_each_time_witness :
  log (snd (close_times 3 stuck_closer (connected no_options))) =
  log (connected no_options) ++ repeat (close_sample 0) 3.
Proof.
  apply (close_calls_transport_each_time 3 stuck_closer (connected no_options) 0).
  reflexivity.
Defined.

(** X6: on a client made by [create], [close()] is the closer's close and
    nothing else: every error of the closer reaches the caller,
    [BadResource] too, and after it [isClosed] is still false and
    [isConnected] still true; on a client made by [connect] the same call
    suppresses [BadResource] and leaves [isClosed] true and [isConnected]
    false. *)
Theorem created_client_close (closer0 : nat)
  (e : string -> list arg -> M RedisRawReply) (w : world) (m : machine) :
  let made := create closer0 e in
  let dialled := RedisConnection_object e in
  let m1 := snd (RedisImpl_close made w m) in
  let m2 := snd (RedisImpl_close dialled w m) in
  fst (RedisImpl_close made w m) =
    match on_close w (log m) closer0 with
    | Some err => Throw err
    | None => Value tt
    end /\
  self m1 = self m /\
  fst (RedisImpl_isClosed made w m1) = Value false /\
  fst (RedisImpl_isConnected made w m1) = Value true /\
  fst (RedisImpl_isClosed dialled w m2) = Value true /\
  fst (RedisImpl_isConnected dialled w m2) = Value false /\
  (closer (self m) = Some closer0 ->
   on_close w (log m) closer0 = Some BadResource ->
   fst (RedisImpl_close made w m) = Throw BadResource /\
   fst (RedisImpl_close dialled w m) = Value tt).
Proof.
  cbv zeta.
  unfold RedisImpl_close, RedisImpl_isClosed, RedisImpl_isConnected, create,
    RedisConnection_object, RedisConnection_as_Connection, transport_close.
  cbn [as_Connection connection_close get_isClosed get_isConnected].
  destruct (close_flags w m) as [F1 F2].
  split; [destruct (on_close w (log m) closer0); reflexivity|].
  split; [destruct (on_close w (log m) closer0); reflexivity|].
  split; [reflexivity|]. split; [reflexivity|].
  split; [unfold bind, get, ret; cbn [fst]; rewrite F1; reflexivity|].
  split; [unfold bind, get, ret; cbn [fst]; rewrite F2; reflexivity|].
  intros Hc Hb. rewrite Hb. split; [reflexivity|].
  rewrite close_outcome, Hc, Hb. reflexivity.
Qed.

(** ** Where the errors of [connect] come from *)

Lemma perform_failure (w : world) (conn : nat) (cmds : list (string * list arg))
  (e : exn) :
  forall l,
    fst (perform w l conn cmds) = Some e ->
    exists l' cmd,
      In cmd cmds /\ on_exchange w l' conn (fst cmd) (snd cmd) = Throw e.
Proof.
  induction cmds as [|cmd rest IH]; intros l; simpl; [discriminate|].
  destruct (on_exchange w l conn (fst cmd) (snd cmd)) as [v|e0] eqn:E.
  - intros H. destruct (IH _ H) as (l' & cmd' & Hin & Hx). eauto.
  - simpl. intros H. inversion H; subst e0. eauto.
Qed.

(** X7: an error that [connect] raises is the one of [parsePortLike], or
    "deno-redis: opts.port is invalid", or the error of the dial, or the
    error with which the server answered [AUTH] or [SELECT], or an error
    of the transport's close: [connect] adds no other, and the error of
    [selectDb] for a missing database index is never raised by it. *)
Theorem connect_error_origin (opts : RedisConnectOptions) (w : world) (e : exn) :
  fst (connect opts w) = Throw e ->
  parsePortLike (port_or_default (connect_port opts)) = Throw e \/
  e = Error "deno-redis: opts.port is invalid" \/
  (exists z,
     on_dial w [] (truthyBool (Options.tls (connect_options opts)))
       (connect_hostname opts) z = Some e) \/
  (exists l command args,
     (command = "AUTH" \/ command = "SELECT") /\
     on_exchange w l 0 command args = Throw e) \/
  (exists l, on_close w l 0 = Some e).
Proof.
  intros H.
  destruct (port_cases (port_or_default (connect_port opts)))
    as [(z & Hp & Hs) | [(e0 & Hp) | (n & Hp & Hs)]].
  - pose proof (connect_run opts w z Hp Hs) as (_ & _ & R). cbv zeta in R.
    destruct (on_dial w [] _ _ z) as [e1|] eqn:Hd.
    + rewrite R in H. inversion H; subst e1. right. right. left. eauto.
    + destruct (perform w _ 0 (handshake (connect_options opts)))
        as [[e0|] l] eqn:Hperf; rewrite R in H; [|discriminate].
      inversion H as [He]. clear H.
      destruct (on_close w l 0) as [[|c msg]|] eqn:Hc; simpl.
      * right. right. right. left.
        pose proof (perform_failure w 0 _ e0 _ (f_equal fst Hperf))
          as (l' & cmd & Hin & Hx).
        exists l', (fst cmd), (snd cmd). split; [|exact Hx].
        destruct (handshake_commands _ _ Hin) as [[Hn _]|[Hn _]]; auto.
      * right. right. right. right. eauto.
      * right. right. right. left.
        pose proof (perform_failure w 0 _ e0 _ (f_equal fst Hperf))
          as (l' & cmd & Hin & Hx).
        exists l', (fst cmd), (snd cmd). split; [|exact Hx].
        destruct (handshake_commands _ _ Hin) as [[Hn _]|[Hn _]]; auto.
  - left. pose proof (proj1 (connect_refuses opts w) e0 Hp) as R.
    unfold refuses in R. rewrite R in H. inversion H; subst. exact Hp.
  - right. left. pose proof (proj2 (connect_refuses opts w) n Hp Hs) as R.
    unfold refuses in R. rewrite R in H. inversion H; subst. reflexivity.
Qed.

(** A refused dial. *)
Lemma connect_error_origin_witness :
  parsePortLike (port_or_default (connect_port (local_redis no_options))) =
    Throw (Thrown "ConnectionRefused" "connection refused") \/
  Thrown "ConnectionRefused" "connection refused" =
    Error "deno-redis: opts.port is invalid" \/
  (exists z,
     on_dial nobody_home []
       (truthyBool (Options.tls (connect_options (local_redis no_options))))
       (connect_hostname (local_redis no_options)) z =
     Some (Thrown "ConnectionRefused" "connection refused")) \/
  (exists l command args,
     (command = "AUTH" \/ command = "SELECT") /\
     on_exchange nobody_home l 0 command args =
     Throw (Thrown "ConnectionRefused" "connection refused")) \/
  (exists l, on_close nobody_home l 0 =
             Some (Thrown "ConnectionRefused" "connection refused")).
Proof.
  apply (connect_error_origin (local_redis no_options) nobody_home).
  reflexivity.
Defined.

(** ** The arguments that the commands send *)

(** X8: in [set], [EX] wins over [PX]: with a non-zero [ex], [px] is
    ignored; an [ex] or [px] of 0 is the same as none, so that a zero [ex]
    lets [px] through; and options that are all empty are the same as no
    options. *)
Theorem set_expiry_options (conn : Connection) (key value : string)
  (ex px : option Z) (mode : option string) :
  let opts e p :=
    Some {| RedisImpl.SetOpts.ex := e; RedisImpl.SetOpts.px := p;
            RedisImpl.SetOpts.mode := mode |} in
  (forall n, ex = Some n -> n <> 0 ->
     RedisImpl.set conn key value (opts ex px) =
     RedisImpl.set conn key value (opts ex None)) /\
  RedisImpl.set conn key value (opts (Some 0) px) =
    RedisImpl.set conn key value (opts None px) /\
  RedisImpl.set conn key value (opts ex (Some 0)) =
    RedisImpl.set conn key value (opts ex None) /\
  (forall n, px = Some n -> n <> 0 ->
     exists tail,
       RedisImpl.set_args key value (opts (Some 0) px) =
       [AString key; AString value; AString "PX"; ANumber n] ++ tail) /\
  RedisImpl.set conn key value
    (Some {| RedisImpl.SetOpts.ex := None; RedisImpl.SetOpts.px := None;
             RedisImpl.SetOpts.mode := Some "" |}) =
    RedisImpl.set conn key value None.
Proof.
  cbv zeta. unfold RedisImpl.set, RedisImpl.set_args.
  cbn [RedisImpl.SetOpts.ex RedisImpl.SetOpts.px RedisImpl.SetOpts.mode].
  split; [|split; [|split; [|split]]].
  - intros n He Hn. subst ex. apply Z.eqb_neq in Hn.
    assert (E : ifNumber (Some n) = Some n) by (unfold ifNumber; rewrite Hn; reflexivity).
    rewrite E. reflexivity.
  - reflexivity.
  - destruct (ifNumber ex); reflexivity.
  - intros n Hp Hn. subst px. apply Z.eqb_neq in Hn.
    assert (E : ifNumber (Some n) = Some n) by (unfold ifNumber; rewrite Hn; reflexivity).
    rewrite E. simpl.
    destruct (ifString mode) as [md|]; simpl; eauto.
  - reflexivity.
Qed.

Lemma fold_left_get (pats : list string) :
  forall args,
    fold_left (fun args pat => args ++ [AString "GET"; AString pat]) pats args =
    args ++ flat_map (fun pat => [AString "GET"; AString pat]) pats.
Proof.
  induction pats as [|pat pats IH]; intros args; simpl.
  - symmetry. apply app_nil_r.
  - rewrite IH, <- app_assoc. reflexivity.
Qed.

(** X9: what [sort] sends after the key: [BY] with a non-empty [by];
    [LIMIT] only when both [offset] and [count] are given, zeros
    included, so that one of them alone is dropped; then [GET] before each
    pattern, the patterns in their order; then [ALPHA], the order and
    [STORE] with a non-empty destination.  An empty list of patterns is the
    same as none. *)
Theorem sort_arguments (conn : Connection) (key : string)
  (o : RedisImpl.SortOpts.t) :
  let with_limit off cnt :=
    Some {| RedisImpl.SortOpts.by_ := RedisImpl.SortOpts.by_ o;
            RedisImpl.SortOpts.offset := off;
            RedisImpl.SortOpts.count := cnt;
            RedisImpl.SortOpts.patterns := RedisImpl.SortOpts.patterns o;
            RedisImpl.SortOpts.order := RedisImpl.SortOpts.order o;
            RedisImpl.SortOpts.alpha := RedisImpl.SortOpts.alpha o;
            RedisImpl.SortOpts.destination := RedisImpl.SortOpts.destination o |} in
  let with_patterns pats :=
    Some {| RedisImpl.SortOpts.by_ := RedisImpl.SortOpts.by_ o;
            RedisImpl.SortOpts.offset := RedisImpl.SortOpts.offset o;
            RedisImpl.SortOpts.count := RedisImpl.SortOpts.count o;
            RedisImpl.SortOpts.patterns := pats;
            RedisImpl.SortOpts.order := RedisImpl.SortOpts.order o;
            RedisImpl.SortOpts.alpha := RedisImpl.SortOpts.alpha o;
            RedisImpl.SortOpts.destination := RedisImpl.SortOpts.destination o |} in
  RedisImpl.sort_args key (Some o) =
    [AString key] ++
    match ifString (RedisImpl.SortOpts.by_ o) with
    | Some b => [AString "BY"; AString b]
    | None => []
    end ++
    match RedisImpl.SortOpts.offset o, RedisImpl.SortOpts.count o with
    | Some off, Some cnt => [AString "LIMIT"; ANumber off; ANumber cnt]
    | _, _ => []
    end ++
    flat_map (fun pat => [AString "GET"; AString pat])
      match RedisImpl.SortOpts.patterns o with Some pats => pats | None => [] end ++
    (if truthyBool (RedisImpl.SortOpts.alpha o) then [AString "ALPHA"] else []) ++
    match ifString (RedisImpl.SortOpts.order o) with
    | Some ord => [AString ord]
    | None => []
    end ++
    match ifString (RedisImpl.SortOpts.destination o) with
    | Some dest => [AString "STORE"; AString dest]
    | None => []
    end /\
  (forall off, RedisImpl.sort conn key (with_limit (Some off) None) =
               RedisImpl.sort conn key (with_limit None None)) /\
  (forall cnt, RedisImpl.sort conn key (with_limit None (Some cnt)) =
               RedisImpl.sort conn key (with_limit None None)) /\
  RedisImpl.sort conn key (with_patterns (Some [])) =
    RedisImpl.sort conn key (with_patterns None).
Proof.
  cbv zeta. split; [|split; [|split]].
  - unfold RedisImpl.sort_args.
    destruct (ifString (RedisImpl.SortOpts.by_ o)) as [b|];
      destruct (RedisImpl.SortOpts.offset o) as [off|];
      destruct (RedisImpl.SortOpts.count o) as [cnt|];
      destruct (RedisImpl.SortOpts.patterns o) as [pats|];
      destruct (truthyBool (RedisImpl.SortOpts.alpha o));
      destruct (ifString (RedisImpl.SortOpts.order o)) as [ord|];
      destruct (ifString (RedisImpl.SortOpts.destination o)) as [dest|];
      cbv zeta; rewrite ?fold_left_get; cbn [flat_map];
      rewrite <- ?app_assoc, ?app_nil_r; cbn [app]; reflexivity.
  - intros off. reflexivity.
  - intros cnt. reflexivity.
  - reflexivity.
Qed.

Lemma pushZrangeOpts_app (args : list arg) (opts : option RedisImpl.ZrangeOpts.t) :
  RedisImpl.pushZrangeOpts args opts = args ++ zrange_words opts.
Proof.
  unfold zrange_words, RedisImpl.pushZrangeOpts.
  destruct opts as [o|]; [|symmetry; apply app_nil_r].
  destruct (truthyBool (RedisImpl.ZrangeOpts.withScore o));
    destruct (RedisImpl.ZrangeOpts.offset o), (RedisImpl.ZrangeOpts.count o);
    simpl; rewrite <- ?app_assoc, ?app_nil_r; reflexivity.
Qed.

(** X10: [zrevrangebylex(key, max, min, opts)] sends the key, then [min],
    then [max]: the arguments that [zrangebylex(key, min, max, opts)]
    sends, in the same order.  In both, [LIMIT] is among the words that
    follow exactly when [opts] gives both [offset] and [count]. *)
Theorem zrevrangebylex_arguments (conn : Connection) (key max min : string)
  (opts : option RedisImpl.ZrangeOpts.t) :
  RedisImpl.zrevrangebylex conn key max min opts =
    execArrayReply conn "ZREVRANGEBYLEX"
      ([AString key; AString min; AString max] ++ zrange_words opts) /\
  RedisImpl.zrangebylex conn key min max opts =
    execArrayReply conn "ZRANGEBYLEX"
      ([AString key; AString min; AString max] ++ zrange_words opts) /\
  (In (AString "LIMIT") (zrange_words opts) <-> has_limit opts).
Proof.
  unfold RedisImpl.zrevrangebylex, RedisImpl.zrangebylex. cbv zeta.
  rewrite pushZrangeOpts_app. split; [reflexivity|]. split; [reflexivity|].
  unfold zrange_words, RedisImpl.pushZrangeOpts, has_limit.
  destruct opts as [[ws off cnt]|]; simpl.
  - destruct (truthyBool ws), off as [off|], cnt as [cnt|]; simpl; split; intros H;
      try (eexists _, _, _; repeat split; reflexivity);
      try (destruct H as (o' & off' & cnt' & Heq & H1 & H2);
           inversion Heq; subst o'; simpl in H1, H2; discriminate);
      try (repeat (destruct H as [H|H]; try discriminate H); contradiction);
      auto.
  - split; [intros []|]. intros (o' & off' & cnt' & Heq & _). discriminate.
Qed.

Lemma pushGeoRadiusOpts_words (args : list arg) (o : RedisImpl.GeoRadiusOpts.t) :
  RedisImpl.pushGeoRadiusOpts args (Some o) = args ++ geo_words o.
Proof.
  unfold RedisImpl.pushGeoRadiusOpts, geo_words.
  destruct (truthyBool (RedisImpl.GeoRadiusOpts.withCoord o));
    destruct (truthyBool (RedisImpl.GeoRadiusOpts.withDist o));
    destruct (truthyBool (RedisImpl.GeoRadiusOpts.withHash o));
    destruct (RedisImpl.GeoRadiusOpts.count o) as [n|];
    (destruct (RedisImpl.GeoRadiusOpts.sort o) as [srt|];
       [destruct ((srt =? "ASC")%string || (srt =? "DESC")%string)|]);
    destruct (RedisImpl.GeoRadiusOpts.store o) as [st|];
    destruct (RedisImpl.GeoRadiusOpts.storeDist o) as [sd|];
    cbv zeta; rewrite <- ?app_assoc, ?app_nil_r; cbn [app]; reflexivity.
Qed.

Lemma in_flag (b : bool) (word kw : string) :
  In (AString kw) (if b then [AString word] else []) -> kw = word.
Proof.
  destruct b; [|intros []]. intros [H|[]]. inversion H. reflexivity.
Qed.

(** X11: [pushGeoRadiusOpts] adds [count], [store] and [storeDist] as
    bare values: the number of [count] is among the arguments it returns,
    and the words [COUNT], [STORE] and [STOREDIST] are among them only if
    they were among the arguments it was given or are themselves the
    value of [store] or [storeDist].  It adds at most seven arguments,
    after the ones it was given. *)
Theorem pushGeoRadiusOpts_bare_values (args : list arg)
  (opts : option RedisImpl.GeoRadiusOpts.t) :
  (forall kw,
     In kw geo_keywords ->
     In (AString kw) (RedisImpl.pushGeoRadiusOpts args opts) ->
     In (AString kw) args \/
     exists o, opts = Some o /\
               (RedisImpl.GeoRadiusOpts.store o = Some kw \/
                RedisImpl.GeoRadiusOpts.storeDist o = Some kw)) /\
  (forall o n,
     opts = Some o -> RedisImpl.GeoRadiusOpts.count o = Some n ->
     In (ANumber n) (RedisImpl.pushGeoRadiusOpts args opts)) /\
  (exists added,
     RedisImpl.pushGeoRadiusOpts args opts = args ++ added /\
     (List.length added <= 7)%nat).
Proof.
  destruct opts as [o|].
  2:{ split; [|split].
      - intros kw _ H. left. exact H.
      - intros o n H. discriminate.
      - exists []. simpl. split; [symmetry; apply app_nil_r|lia]. }
  rewrite pushGeoRadiusOpts_words. split; [|split].
  - intros kw Hkw H. apply in_app_or in H as [H|H]; [left; exact H|right].
    exists o. split; [reflexivity|].
    unfold geo_words in H.
    apply in_app_or in H as [H|H];
      [apply in_flag in H; subst kw; simpl in Hkw;
       destruct Hkw as [K|[K|[K|[]]]]; discriminate K|].
    apply in_app_or in H as [H|H];
      [apply in_flag in H; subst kw; simpl in Hkw;
       destruct Hkw as [K|[K|[K|[]]]]; discriminate K|].
    apply in_app_or in H as [H|H];
      [apply in_flag in H; subst kw; simpl in Hkw;
       destruct Hkw as [K|[K|[K|[]]]]; discriminate K|].
    apply in_app_or in H as [H|H].
    { destruct (RedisImpl.GeoRadiusOpts.count o); [|destruct H].
      destruct H as [H|[]]. discriminate H. }
    apply in_app_or in H as [H|H].
    { destruct (RedisImpl.GeoRadiusOpts.sort o) as [srt|]; [|destruct H].
      destruct ((srt =? "ASC")%string || (srt =? "DESC")%string) eqn:E;
        [|destruct H].
      destruct H as [H|[]]. inversion H; subst kw.
      apply orb_prop in E as [E|E]; apply String.eqb_eq in E; subst srt;
        simpl in Hkw; destruct Hkw as [K|[K|[K|[]]]]; discriminate K. }
    apply in_app_or in H as [H|H].
    + destruct (RedisImpl.GeoRadiusOpts.store o) as [st|]; [|destruct H].
      destruct H as [H|[]]. inversion H. left. reflexivity.
    + destruct (RedisImpl.GeoRadiusOpts.storeDist o) as [st|]; [|destruct H].
      destruct H as [H|[]]. inversion H. right. reflexivity.
  - intros o' n Ho Hn. inversion Ho; subst o'. apply in_or_app. right.
    unfold geo_words. rewrite Hn.
    apply in_or_app. right. apply in_or_app. right. apply in_or_app. right.
    apply in_or_app. left. left. reflexivity.
  - exists (geo_words o). split; [reflexivity|].
    unfold geo_words. rewrite !length_app.
    destruct (truthyBool (RedisImpl.GeoRadiusOpts.withCoord o));
      destruct (truthyBool (RedisImpl.GeoRadiusOpts.withDist o));
      destruct (truthyBool (RedisImpl.GeoRadiusOpts.withHash o));
      destruct (RedisImpl.GeoRadiusOpts.count o);
      (destruct (RedisImpl.GeoRadiusOpts.sort o) as [srt|];
         [destruct ((srt =? "ASC")%string || (srt =? "DESC")%string)|]);
      destruct (RedisImpl.GeoRadiusOpts.store o);
      destruct (RedisImpl.GeoRadiusOpts.storeDist o); simpl; lia.
Qed.

Section StreamProperties.

Variable XIdInput : Type.
Variable xidstr : XIdInput -> string.
Variables XId XMessage XReadReply : Type.
Variable parseXId : string -> result XId.
Variable parseXMessage : raw -> result XMessage.
Variable parseXReadReply : raw -> result XReadReply.

Lemma xread_loop_maps (key_xids : list (RedisImpl.XKeyIdOrLike XIdInput)) :
  forall the_keys the_xids,
    RedisImpl.xread_loop XIdInput xidstr key_xids the_keys the_xids =
    (the_keys ++ map (fun a => AString (key_of a)) key_xids,
     the_xids ++ map (fun a => AString (xidstr (xid_of a))) key_xids).
Proof.
  induction key_xids as [|a rest IH]; intros the_keys the_xids; simpl.
  - rewrite !app_nil_r. reflexivity.
  - destruct a as [k x|k x]; rewrite IH, <- !app_assoc; reflexivity.
Qed.

(** X12: [xread] sends [COUNT] and [BLOCK], each only with a number that
    is not zero, then [STREAMS], then the keys of all the pairs, then the
    identifiers of all the pairs: with [n] pairs, the key of pair [i] is
    [i] places after [STREAMS] and its identifier [n] places further, for
    pairs given as objects and as arrays alike.  The reply of the server
    goes through [parseXReadReply]. *)
Theorem xread_arguments (conn : Connection)
  (key_xids : list (RedisImpl.XKeyIdOrLike XIdInput))
  (opts : option RedisImpl.XReadOpts.t) :
  let args := RedisImpl.xread_args XIdInput xidstr key_xids opts in
  let n := List.length key_xids in
  let h := List.length (xread_words opts) in
  args =
    xread_words opts ++ [AString "STREAMS"] ++
    map (fun a => AString (key_of a)) key_xids ++
    map (fun a => AString (xidstr (xid_of a))) key_xids /\
  List.length args = (h + 1 + 2 * n)%nat /\
  (forall i a,
     nth_error key_xids i = Some a ->
     nth_error args (h + 1 + i) = Some (AString (key_of a)) /\
     nth_error args (h + 1 + n + i) = Some (AString (xidstr (xid_of a)))) /\
  RedisImpl.xread XIdInput xidstr XReadReply parseXReadReply conn key_xids opts =
    (reply <- execArrayReply conn "XREAD" args ;; lift (parseXReadReply reply)).
Proof.
  cbv zeta.
  assert (E : RedisImpl.xread_args XIdInput xidstr key_xids opts =
              xread_words opts ++ [AString "STREAMS"] ++
              map (fun a => AString (key_of a)) key_xids ++
              map (fun a => AString (xidstr (xid_of a))) key_xids).
  { unfold RedisImpl.xread_args, xread_words. rewrite xread_loop_maps.
    cbv zeta. cbn [app]. rewrite <- !app_assoc.
    destruct opts as [o|]; [|reflexivity].
    destruct (ifNumber (RedisImpl.XReadOpts.count o)),
             (ifNumber (RedisImpl.XReadOpts.block o)); reflexivity. }
  split; [exact E|]. split; [|split].
  - rewrite E, !length_app, !length_map. simpl. lia.
  - intros i a Hi. rewrite E.
    assert (Hlt : (i < List.length key_xids)%nat)
      by (apply nth_error_Some; congruence).
    split.
    + rewrite nth_error_app2 by lia.
      replace (List.length (xread_words opts) + 1 + i - List.length (xread_words opts))%nat
        with (S i) by lia.
      cbn [app nth_error].
      rewrite nth_error_app1 by (rewrite length_map; exact Hlt).
      rewrite nth_error_map, Hi. reflexivity.
    + rewrite nth_error_app2 by lia.
      replace (List.length (xread_words opts) + 1 + List.length key_xids + i
               - List.length (xread_words opts))%nat
        with (S (List.length key_xids + i)) by lia.
      cbn [app nth_error].
      rewrite nth_error_app2 by (rewrite length_map; lia).
      rewrite length_map.
      replace (List.length key_xids + i - List.length key_xids)%nat with i by lia.
      rewrite nth_error_map, Hi. reflexivity.
  - reflexivity.
Qed.

Lemma xclaim_xids_parsed (items : list raw) :
  forall acc xids,
    RedisImpl.xclaim_xids XId parseXId items acc = Value xids ->
    exists news,
      xids = acc ++ news /\
      Forall2 (fun s x => parseXId s = Value x) (strings_of items) news.
Proof.
  induction items as [|r rest IH]; intros acc xids; simpl.
  - intros H. inversion H. exists []. split; [symmetry; apply app_nil_r|constructor].
  - destruct r as [s|z| |l]; try (intros H; exact (IH _ _ H)).
    destruct (parseXId s) as [x|e] eqn:E; [|discriminate].
    intros H. destruct (IH _ _ H) as (news & Hn & Hf).
    exists (x :: news). split; [rewrite Hn, <- app_assoc; reflexivity|].
    simpl. constructor; assumption.
Qed.

Lemma xclaim_messages_parsed (items : list raw) :
  forall acc messages,
    RedisImpl.xclaim_messages XMessage parseXMessage items acc = Value messages ->
    exists news,
      messages = acc ++ news /\
      Forall2 (fun r msg => parseXMessage r = Value msg) (others_of items) news.
Proof.
  induction items as [|r rest IH]; intros acc messages; simpl.
  - intros H. inversion H. exists []. split; [symmetry; apply app_nil_r|constructor].
  - destruct r as [s|z| |l]; try (intros H; exact (IH _ _ H));
      match goal with
      | |- context [parseXMessage ?r] => destruct (parseXMessage r) as [x|e] eqn:E
      end; try discriminate;
      intros H; destruct (IH _ _ H) as (news & Hn & Hf);
      exists (x :: news); (split; [rewrite Hn, <- app_assoc; reflexivity|]);
      simpl; constructor; assumption.
Qed.

Lemma strings_others_length (items : list raw) :
  (List.length (strings_of items) + List.length (others_of items) =
   List.length items)%nat.
Proof.
  induction items as [|r rest IH]; [reflexivity|].
  destruct r; simpl; unfold strings_of, others_of in *; simpl; lia.
Qed.

(** X13: when [xclaim] returns, the server's reply was iterable and every
    item of it was used in one way only: with [justXId] set, the result is
    in identifiers, one for each string of the reply in order, parsed by
    [parseXId], and the items that are not strings are dropped; otherwise
    it is in messages, one for each item that is not a string, parsed by
    [parseXMessage], and the strings are dropped. *)
Theorem xclaim_reply_split (conn : Connection) (key : string)
  (opts : RedisImpl.XClaimOpts.t) (xids : list XIdInput) (w : world)
  (m m' : machine) (payload : RedisImpl.XClaimReply XId XMessage) :
  RedisImpl.xclaim XIdInput xidstr XId XMessage parseXId parseXMessage
    conn key opts xids w m = (Value payload, m') ->
  exists tag reply items,
    exec conn "XCLAIM" (RedisImpl.xclaim_args XIdInput xidstr key opts xids) w m =
      (Value (tag, reply), m') /\
    iterate reply = Value items /\
    match payload with
    | RedisImpl.XClaimJustXId ids =>
        truthyBool (RedisImpl.XClaimOpts.justXId opts) = true /\
        Forall2 (fun s x => parseXId s = Value x) (strings_of items) ids /\
        (List.length ids + List.length (others_of items) = List.length items)%nat
    | RedisImpl.XClaimMessages messages =>
        truthyBool (RedisImpl.XClaimOpts.justXId opts) = false /\
        Forall2 (fun r msg => parseXMessage r = Value msg) (others_of items) messages /\
        (List.length (strings_of items) + List.length messages = List.length items)%nat
    end.
Proof.
  unfold RedisImpl.xclaim, execArrayReply, bind, lift, ret.
  destruct (exec conn "XCLAIM" _ w m) as [[[tag reply]|e] m1] eqn:Ex; [|discriminate].
  cbn [snd].
  destruct (iterate reply) as [items|e] eqn:Hit; [|discriminate].
  destruct (truthyBool (RedisImpl.XClaimOpts.justXId opts)) eqn:Hj.
  - destruct (RedisImpl.xclaim_xids XId parseXId items []) as [ids|e] eqn:Hx;
      [|discriminate].
    intros H. inversion H; subst payload m1. clear H.
    exists tag, reply, items. split; [reflexivity|]. split; [exact Hit|].
    destruct (xclaim_xids_parsed _ _ _ Hx) as (news & Hn & Hf).
    simpl in Hn. subst news. split; [reflexivity|]. split; [exact Hf|].
    rewrite <- (Forall2_length Hf). apply strings_others_length.
  - destruct (RedisImpl.xclaim_messages XMessage parseXMessage items [])
      as [msgs|e] eqn:Hx; [|discriminate].
    intros H. inversion H; subst payload m1. clear H.
    exists tag, reply, items. split; [reflexivity|]. split; [exact Hit|].
    destruct (xclaim_messages_parsed _ _ _ Hx) as (news & Hn & Hf).
    simpl in Hn. subst news. split; [reflexivity|]. split; [exact Hf|].
    rewrite <- (Forall2_length Hf). apply strings_others_length.
Qed.

End StreamProperties.

(** A reply with two identifiers and a message, asked for identifiers only. *)
Lemma xclaim_reply_split_witness :
  exists tag reply items,
    exec (canned mixed_reply) "XCLAIM"
      (RedisImpl.xclaim_args string (fun x => x) "jobs" (claim_opts true) ["1-0"; "3-0"])
      calm (connected no_options) =
      (Value (tag, reply), connected no_options) /\
    iterate reply = Value items /\
    truthyBool (RedisImpl.XClaimOpts.justXId (claim_opts true)) = true /\
    Forall2 (fun s x => Value s = Value x) (strings_of items) ["1-0"; "3-0"] /\
    (List.length ["1-0"; "3-0"] + List.length (others_of items) =
     List.length items)%nat.
Proof.
  apply (xclaim_reply_split string (fun x => x) string raw
           (fun s => Value s) (fun r => Value r)
           (canned mixed_reply) "jobs" (claim_opts true) ["1-0"; "3-0"]
           calm (connected no_options) (connected no_options)
           (RedisImpl.XClaimJustXId ["1-0"; "3-0"])).
  reflexivity.
Defined.

(** ** [reconnect] leaves no connection open behind it *)

















